(** * pushover-to-gotify: the streaming client of [src/Client.ts]

    A shallow embedding of the [Client] class.  The class runs on Node's
    event loop: every method body runs to its next suspension point without
    interruption, and everything that happens later (a socket event, a timer,
    the end of an HTTP exchange, the result of a [stat]) arrives as a separate
    event.  The embedding follows that shape.

    - The fields of the class are the record [Client]; what the class reaches
      through the runtime (the clock, the pending timers, the sockets that
      still have listeners, the I/O in flight, the image directory) is the
      record [Node].
    - Method bodies are written in a small state monad [M] over both, one
      definition per run-to-suspension segment of the source method.
    - Everything a method does to the outside is appended to a trace of
      [Effect]s, so that "no request is issued" or "exactly one download" are
      statements about that trace.
    - [step] delivers one event of the event loop.
    - [main] is the entry point of the program from the choice of the image
      directory on: it builds the client and calls [connect].

    Numbers are [Z].  A number that may be [undefined] or [NaN] at run time
    (an optional setting, [lastConnection] before the first [connect]) is an
    [option Z].

    Taken from the libraries as they are documented: [removeAllListeners]
    and [terminate] do not throw on an existing socket, a socket whose
    listeners were removed is never heard of again, the cache directory
    exists, and the clock does not run backwards. *)

From Stdlib Require Import ZArith List String Ascii Bool Lia Permutation.
From Stdlib Require Import Sorted.
From Stdlib Require Import DecimalString.
Import ListNotations.

Local Open Scope string_scope.
Local Open Scope Z_scope.

(** ** Data *)

(** [interface IPushoverMessage].  [icon] is [None] when the field is absent
    from the payload. *)
Record IPushoverMessage := {
  id : Z;
  title : string;
  message : string;
  app : string;
  aid : Z;
  icon : option string;
  date : Z;
  priority : Z;
  acked : Z;
  umid : Z
}.

(** [interface ISettings]; the fields marked [?] in the source are options.
    The logger is not a field here: its two methods are the effects [Log] and
    [LogError] below. *)
Record ISettings := {
  deviceId : string;
  secret : string;
  gotifyHost : string;
  gotifyToken : string;
  imageCache : option string;
  wsHost : option string;
  iconHost : option string;
  apiHost : option string;
  apiPath : option string;
  keepAliveTimeout : option Z
}.

(** The private fields of [class Client].  A socket is named by a number, a
    timer by its handle. *)
Record Client := {
  settings : ISettings;
  wsClient : option nat;
  lastConnection : option Z;
  keepAlive : option nat;
  retry : option nat;
  lastMessageId : Z
}.

(** The two callbacks the class passes to [setTimeout]. *)
Inductive TimerCallback :=
| KeepAliveExpired   (* the arrow function in resetKeepAlive *)
| Retry.             (* the arrow function in reconnect *)

Record Timer := {
  handle : nat;
  callback : TimerCallback;
  delay : option Z;    (* the second argument of setTimeout, as passed *)
  armedAt : Z
}.

(** The four HTTP exchanges of the class, by endpoint. *)
Inductive Request :=
| GetMessages (host path : option string) (secret device_id : string)
| PostGotify (host token : string) (title message : string) (priority : Z)
| PostUpdateHighest (host path : option string) (deviceId secret : string)
                    (message : Z)
| GetIcon (host : option string) (imageName : string).

(** What the environment answers to a request: the request's ['error'] event,
    or a response that ran to its ['end'].  [payload] is what
    [JSON.parse(finalData).messages] gives: the list of messages, or the
    stack of the error thrown on the way to one.  Only [refreshMessages]
    looks at it. *)
Inductive Outcome :=
| Failed (stack : string)
| Responded (statusCode : Z) (finalData : string)
            (payload : string + list IPushoverMessage).

(** Who awaits [refreshMessages()]: the rest of the ['open'] handler, or the
    rest of the ["!"] branch of the ['message'] handler. *)
Inductive Cont :=
| ThenLogin
| ThenReturn.

(** I/O in flight, with what the class does when it completes. *)
Inductive Pending :=
| PRefresh (k : Cont)
| PStat (imageFile imageName : string) (m : IPushoverMessage)
| PIcon (imageFile imageName : string) (m : IPushoverMessage)
| PNotify
| PHead (k : Cont).

(** A line handed to the logger. *)
Inductive Line :=
| Str (s : string)
| JSON_stringify (m : IPushoverMessage).

(** What the class does to the outside.  [UnhandledRejection] is an
    exception leaving an [async] listener, which nobody awaits. *)
Inductive Effect :=
| Log (l : Line)
| LogError (l : Line)
| NewWebSocket (s : nat) (host : option string)
| WsSend (s : nat) (data : string)
| WsRemoveAllListeners (s : nat)
| WsTerminate (s : nat)
| SetTimeout (h : nat) (cb : TimerCallback) (delay : option Z)
| ClearTimeout (h : option nat)
| HttpsRequest (r : Request)
| FsStat (path : string)
| FsCreateWriteStream (path : string)
| UnhandledRejection.

(** The part of the Node runtime the class depends on.  [inflight] lists the
    outstanding I/O, oldest first.  [trace] is in reverse order: the newest
    effect is at the head. *)
Record Node := {
  now : Z;
  listeners : list nat;
  timers : list Timer;
  inflight : list Pending;
  files : list string;
  fresh : nat;
  trace : list Effect
}.

Record State := {
  this : Client;
  node : Node
}.

(** ** The state monad of method bodies *)

Definition M (A : Type) : Type := State -> A * State.

Definition ret {A} (a : A) : M A := fun st => (a, st).

Definition bind {A B} (m : M A) (f : A -> M B) : M B :=
  fun st => let (a, st') := m st in f a st'.

Declare Scope js_scope.
Delimit Scope js_scope with js.
Notation "x <- m ;; f" := (bind m (fun x => f))
  (at level 61, m at next level, right associativity) : js_scope.
Notation "m ;; f" := (bind m (fun _ => f))
  (at level 61, right associativity) : js_scope.
Local Open Scope js_scope.

Definition exec {A} (m : M A) (st : State) : State := snd (m st).

Definition self : M Client := fun st => (this st, st).

Definition modify_this (f : Client -> Client) : M unit :=
  fun st => (tt, {| this := f (this st); node := node st |}).

Definition modify_node (f : Node -> Node) : M unit :=
  fun st => (tt, {| this := this st; node := f (node st) |}).

(** Field assignments [this.x = v]. *)
Definition set_wsClient (v : option nat) (c : Client) : Client :=
  {| settings := settings c; wsClient := v;
     lastConnection := lastConnection c; keepAlive := keepAlive c;
     retry := retry c; lastMessageId := lastMessageId c |}.

Definition set_lastConnection (v : option Z) (c : Client) : Client :=
  {| settings := settings c; wsClient := wsClient c;
     lastConnection := v; keepAlive := keepAlive c;
     retry := retry c; lastMessageId := lastMessageId c |}.

Definition set_keepAlive (v : option nat) (c : Client) : Client :=
  {| settings := settings c; wsClient := wsClient c;
     lastConnection := lastConnection c; keepAlive := v;
     retry := retry c; lastMessageId := lastMessageId c |}.

Definition set_retry (v : option nat) (c : Client) : Client :=
  {| settings := settings c; wsClient := wsClient c;
     lastConnection := lastConnection c; keepAlive := keepAlive c;
     retry := v; lastMessageId := lastMessageId c |}.

Definition set_lastMessageId (v : Z) (c : Client) : Client :=
  {| settings := settings c; wsClient := wsClient c;
     lastConnection := lastConnection c; keepAlive := keepAlive c;
     retry := retry c; lastMessageId := v |}.

(** Updates of the runtime. *)
Definition push_effect (e : Effect) (n : Node) : Node :=
  {| now := now n; listeners := listeners n; timers := timers n;
     inflight := inflight n; files := files n; fresh := fresh n;
     trace := e :: trace n |}.

Definition set_listeners (l : list nat) (n : Node) : Node :=
  {| now := now n; listeners := l; timers := timers n;
     inflight := inflight n; files := files n; fresh := fresh n;
     trace := trace n |}.

Definition set_timers (l : list Timer) (n : Node) : Node :=
  {| now := now n; listeners := listeners n; timers := l;
     inflight := inflight n; files := files n; fresh := fresh n;
     trace := trace n |}.

Definition set_inflight (l : list Pending) (n : Node) : Node :=
  {| now := now n; listeners := listeners n; timers := timers n;
     inflight := l; files := files n; fresh := fresh n;
     trace := trace n |}.

Definition set_files (l : list string) (n : Node) : Node :=
  {| now := now n; listeners := listeners n; timers := timers n;
     inflight := inflight n; files := l; fresh := fresh n;
     trace := trace n |}.

Definition set_fresh (k : nat) (n : Node) : Node :=
  {| now := now n; listeners := listeners n; timers := timers n;
     inflight := inflight n; files := files n; fresh := k;
     trace := trace n |}.

Definition set_now (t : Z) (n : Node) : Node :=
  {| now := t; listeners := listeners n; timers := timers n;
     inflight := inflight n; files := files n; fresh := fresh n;
     trace := trace n |}.

(** ** Runtime primitives *)

Definition emit (e : Effect) : M unit := modify_node (push_effect e).

Definition logger_log (s : string) : M unit := emit (Log (Str s)).
Definition logger_error (s : string) : M unit := emit (LogError (Str s)).

Definition Date_now : M Z := fun st => (now (node st), st).

(** A fresh socket or timer number. *)
Definition gensym : M nat :=
  fun st => (fresh (node st),
             {| this := this st;
                node := set_fresh (S (fresh (node st))) (node st) |}).

Definition setTimeout (cb : TimerCallback) (d : option Z) : M nat :=
  h <- gensym ;;
  t <- Date_now ;;
  modify_node (fun n =>
    set_timers (timers n ++
                [{| handle := h; callback := cb; delay := d; armedAt := t |}])
               n) ;;
  emit (SetTimeout h cb d) ;;
  ret h.

Definition cancel (h : option nat) (l : list Timer) : list Timer :=
  match h with
  | None => l
  | Some h => filter (fun t => negb (Nat.eqb (handle t) h)) l
  end.

Definition clearTimeout (h : option nat) : M unit :=
  modify_node (fun n => set_timers (cancel h (timers n)) n) ;;
  emit (ClearTimeout h).

(** [Https.request(options, callback)] followed by [request.end()]: the
    exchange is in flight and [p] says what runs when it is over. *)
Definition Https_request (r : Request) (p : Pending) : M unit :=
  modify_node (fun n => set_inflight (inflight n ++ [p]) n) ;;
  emit (HttpsRequest r).

(** [File.promises.stat(path)], awaited by [fileExists]. *)
Definition File_stat (path : string) (p : Pending) : M unit :=
  modify_node (fun n => set_inflight (inflight n ++ [p]) n) ;;
  emit (FsStat path).

(** [File.createWriteStream(path)] with the response piped into it: the file
    exists afterwards.  The directory is assumed to exist. *)
Definition File_createWriteStream (path : string) : M unit :=
  modify_node (fun n => set_files (path :: files n) n) ;;
  emit (FsCreateWriteStream path).

(** [Path.join(dir, name)], without the normalisation of [.] and [..]. *)
Definition Path_join (dir name : string) : string := dir ++ "/" ++ name.

(** Template-literal interpolation of a number. *)
Definition string_of_Z (z : Z) : string := NilZero.string_of_int (Z.to_int z).

(** JavaScript truthiness of an optional string: [undefined] and the empty
    string are falsy. *)
Definition truthy (s : option string) : bool :=
  match s with
  | None => false
  | Some s => negb (String.eqb s "")
  end.

(** Subtraction of numbers either of which may be [undefined] or [NaN]. *)
Definition js_sub (a b : option Z) : option Z :=
  match a, b with
  | Some a, Some b => Some (a - b)
  | _, _ => None
  end.

(** ** The constructor *)

(** [Object.assign({defaults}, settings)]: a field the caller supplies wins,
    a missing one takes its default. *)
Definition or_default {A} (given : option A) (d : A) : option A :=
  match given with
  | Some a => Some a
  | None => Some d
  end.

Definition constructor (s : ISettings) : Client :=
  {| settings :=
       {| deviceId := deviceId s;
          secret := secret s;
          gotifyHost := gotifyHost s;
          gotifyToken := gotifyToken s;
          imageCache := imageCache s;
          wsHost := or_default (wsHost s) "wss://client.pushover.net/push";
          iconHost := or_default (iconHost s) "client.pushover.net";
          apiHost := or_default (apiHost s) "api.pushover.net";
          apiPath := or_default (apiPath s) "/1";
          keepAliveTimeout := or_default (keepAliveTimeout s) 60000 |};
     wsClient := None;
     lastConnection := None;
     keepAlive := None;
     retry := None;
     lastMessageId := 0 |}.

(** A process that has just built its client: nothing armed, nothing in
    flight. *)
Definition boot (s : ISettings) (cached : list string) : State :=
  {| this := constructor s;
     node := {| now := 0; listeners := []; timers := []; inflight := [];
                files := cached; fresh := O; trace := [] |} |}.

(** ** Connection manager *)

(** [connect()].  The four [wsClient.on(...)] calls are the socket joining
    [listeners]; the handlers themselves are [on_open], [on_message],
    [on_error] and [on_close] below. *)
Definition connect : M unit :=
  c <- self ;;
  match wsClient c with
  | Some _ => ret tt
  | None =>
      s <- gensym ;;
      emit (NewWebSocket s (wsHost (settings c))) ;;
      modify_this (set_wsClient (Some s)) ;;
      t <- Date_now ;;
      modify_this (set_lastConnection (Some t)) ;;
      modify_node (fun n => set_listeners (s :: listeners n) n)
  end.

Definition resetKeepAlive : M unit :=
  c <- self ;;
  clearTimeout (keepAlive c) ;;
  h <- setTimeout KeepAliveExpired (keepAliveTimeout (settings c)) ;;
  modify_this (set_keepAlive (Some h)).

(** [reconnect()].  With no socket, [this.wsClient.removeAllListeners()]
    throws and the empty [catch] swallows it. *)
Definition reconnect : M unit :=
  c <- self ;;
  clearTimeout (keepAlive c) ;;
  match wsClient c with
  | Some s =>
      emit (WsRemoveAllListeners s) ;;
      modify_node (fun n =>
        set_listeners (filter (fun x => negb (Nat.eqb x s)) (listeners n)) n) ;;
      emit (WsTerminate s) ;;
      modify_this (set_wsClient None)
  | None => ret tt
  end ;;
  t <- Date_now ;;
  h <- setTimeout Retry
         (js_sub (keepAliveTimeout (settings c))
                 (js_sub (Some t) (lastConnection c))) ;;
  modify_this (set_retry (Some h)).

(** The callback of the keep-alive timer. *)
Definition keepAlive_expired : M unit :=
  logger_log "Did not receive keep alive message in time, reconnecting" ;;
  reconnect.

(** The callback of the retry timer. *)
Definition retry_expired : M unit :=
  c <- self ;;
  clearTimeout (retry c) ;;
  connect.

(** ** Message fetcher *)

(** [refreshMessages()] up to [request.end()].  [k] is the caller that awaits
    the returned promise. *)
Definition refreshMessages (k : Cont) : M unit :=
  logger_log "Refreshing messages" ;;
  c <- self ;;
  Https_request
    (GetMessages (apiHost (settings c)) (apiPath (settings c))
                 (secret (settings c)) (deviceId (settings c)))
    (PRefresh k).

Definition newline : string := String (ascii_of_nat 10) EmptyString.

(** What runs once the promise of [refreshMessages()] resolves. *)
Definition resume (k : Cont) : M unit :=
  match k with
  | ThenReturn => ret tt
  | ThenLogin =>
      logger_log "WebSocket connected, waiting for messages" ;;
      resetKeepAlive ;;
      c <- self ;;
      match wsClient c with
      | Some s =>
          emit (WsSend s ("login:" ++ deviceId (settings c) ++ ":"
                          ++ secret (settings c) ++ newline))
      | None => emit UnhandledRejection
      end
  end.

(** ** Dispatcher *)

Definition gotifyPriority (pushoverPriority : Z) : Z :=
  match pushoverPriority with
  | -2 => 1
  | -1 => 3
  | 0 => 5
  | 1 => 10
  | _ => 5
  end.

(** [notify(message, imageFile)] up to [request.end()]. *)
Definition notify (m : IPushoverMessage) (imageFile : option string) : M unit :=
  emit (Log (JSON_stringify m)) ;;
  c <- self ;;
  Https_request
    (PostGotify (gotifyHost (settings c)) (gotifyToken (settings c))
                (title m) (message m) (gotifyPriority (priority m)))
    PNotify.

(** The end of the exchange started by [notify]. *)
Definition notify_done (o : Outcome) : M unit :=
  match o with
  | Failed stack =>
      logger_error "Error while posting to gotify" ;;
      logger_error stack
  | Responded statusCode finalData _ =>
      if statusCode =? 200 then ret tt
      else logger_error "Error while posting to gotify" ;;
           logger_error finalData
  end.

(** How far an [async] call got before returning to its caller. *)
Inductive Promise (A : Type) :=
| Resolved (a : A)
| Suspended.
Arguments Resolved {A} a.
Arguments Suspended {A}.

(** [fetchImage(imageName)] up to its first [await].  [m] is the message
    whose [notify] waits for the result. *)
Definition fetchImage (imageName : string) (m : IPushoverMessage)
  : M (Promise (option string)) :=
  c <- self ;;
  if truthy (imageCache (settings c)) then
    match imageCache (settings c) with
    | Some dir =>
        let imageFile := Path_join dir imageName in
        File_stat imageFile (PStat imageFile imageName m) ;;
        ret Suspended
    | None => ret (Resolved None)
    end
  else ret (Resolved None).

(** [fetchImage] from the result of [fileExists] to its [request.end()]. *)
Definition fetchImage_stat (found : bool) (imageFile imageName : string)
    (m : IPushoverMessage) : M (Promise (option string)) :=
  if found then ret (Resolved (Some imageFile))
  else
    logger_log ("Caching image for " ++ imageName) ;;
    c <- self ;;
    Https_request (GetIcon (iconHost (settings c)) imageName)
                  (PIcon imageFile imageName m) ;;
    ret Suspended.

(** The end of the icon download: the response is piped into the cache file
    before its status is looked at. *)
Definition fetchImage_done (o : Outcome) (imageFile imageName : string)
  : M (option string) :=
  match o with
  | Failed stack =>
      logger_error ("Request error while caching image " ++ imageName) ;;
      logger_error stack ;;
      ret None
  | Responded statusCode _ _ =>
      File_createWriteStream imageFile ;;
      if statusCode =? 200 then ret (Some imageFile)
      else
        logger_error ("HTTP error while caching image " ++ imageName ++ ": "
                      ++ string_of_Z statusCode) ;;
        ret None
  end.

(** ** Cursor updater *)

(** [updateHead(message)] up to [request.end()]; the result says whether the
    returned promise is already resolved.  [k] awaits it otherwise. *)
Definition updateHead (m : option IPushoverMessage) (k : Cont) : M bool :=
  c <- self ;;
  match m with
  | None => ret true
  | Some m =>
      if id m <=? lastMessageId c then ret true
      else
        modify_this (set_lastMessageId (id m)) ;;
        logger_log ("Updating head position to " ++ string_of_Z (id m)) ;;
        Https_request
          (PostUpdateHighest (apiHost (settings c)) (apiPath (settings c))
                             (deviceId (settings c)) (secret (settings c))
                             (id m))
          (PHead k) ;;
        ret false
  end.

(** The end of the exchange started by [updateHead]. *)
Definition updateHead_done (o : Outcome) (k : Cont) : M unit :=
  match o with
  | Failed stack =>
      logger_error "Error while updating head" ;;
      logger_error stack
  | Responded statusCode finalData _ =>
      if statusCode =? 200 then ret tt
      else logger_error "Error while updating head" ;;
           logger_error finalData
  end ;;
  resume k.

(** ** Batches *)

(** The icon expression of [handleMessages]. *)
Definition icon_of (m : IPushoverMessage) : string :=
  match icon m with
  | Some s => if truthy (Some s) then s
              else if aid m =? 1 then "pushover.png" else "default.png"
  | None => if aid m =? 1 then "pushover.png" else "default.png"
  end.

(** The first statement of the [forEach] callback. *)
Definition track (lastMessage : option IPushoverMessage)
    (m : IPushoverMessage) : option IPushoverMessage :=
  match lastMessage with
  | None => Some m
  | Some l => if id l <? id m then Some m else lastMessage
  end.

(** [messages.forEach(async (message) => ...)]: each callback runs up to its
    [await this.fetchImage(icon)].  The result is the final [lastMessage] and
    the callbacks whose promise was already resolved, with its value; they
    go on to [notify] once the caller has returned. *)
Fixpoint forEach (messages : list IPushoverMessage)
    (lastMessage : option IPushoverMessage)
    (ready : list (IPushoverMessage * option string))
  : M (option IPushoverMessage * list (IPushoverMessage * option string)) :=
  match messages with
  | [] => ret (lastMessage, ready)
  | m :: rest =>
      let lastMessage := track lastMessage m in
      c <- self ;;
      if lastMessageId c <? id m then
        p <- fetchImage (icon_of m) m ;;
        match p with
        | Resolved imageFile =>
            forEach rest lastMessage (ready ++ [(m, imageFile)])
        | Suspended => forEach rest lastMessage ready
        end
      else forEach rest lastMessage ready
  end.

Fixpoint notify_all (ready : list (IPushoverMessage * option string))
  : M unit :=
  match ready with
  | [] => ret tt
  | (m, imageFile) :: rest => notify m imageFile ;; notify_all rest
  end.

(** [handleMessages(messages)], awaited by the ['end'] handler of
    [refreshMessages], whose own caller is [k]. *)
Definition handleMessages (messages : list IPushoverMessage) (k : Cont)
  : M unit :=
  r <- forEach messages None [] ;;
  settled <- updateHead (fst r) k ;;
  notify_all (snd r) ;;
  if settled then resume k else ret tt.

(** The end of the exchange started by [refreshMessages]. *)
Definition refreshMessages_done (o : Outcome) (k : Cont) : M unit :=
  match o with
  | Failed stack =>
      logger_error "Error while refreshing messages" ;;
      logger_error stack ;;
      resume k
  | Responded statusCode finalData payload =>
      if statusCode =? 200 then
        match payload with
        | inr messages => handleMessages messages k
        | inl stack =>
            logger_error "Failed to parse message payload" ;;
            logger_error stack ;;
            resume k
        end
      else
        logger_error "Error while refreshing messages" ;;
        logger_error finalData ;;
        resume k
  end.

(** ** The event loop *)

(** The four listeners installed by [connect]. *)
Definition on_open : M unit := refreshMessages ThenLogin.

Definition on_message (data : string) : M unit :=
  if String.eqb data "!" then
    logger_log "Got new message event" ;;
    refreshMessages ThenReturn
  else if String.eqb data "#" then
    resetKeepAlive
  else
    logger_log ("Unknown message: " ++ data) ;;
    reconnect.

Definition on_error (stack : string) : M unit :=
  logger_error "WebSocket connection error" ;;
  logger_error stack ;;
  reconnect.

Definition on_close : M unit :=
  logger_log "WebSocket connection closed, reconnecting" ;;
  reconnect.

(** The value [fileExists(path)] resolves to, read off the file system when
    the [stat] ends. *)
Definition fileExists (path : string) : M bool :=
  fun st => (existsb (String.eqb path) (files (node st)), st).

(** What the class runs when the I/O [p] is over. *)
Definition complete (p : Pending) (o : Outcome) : M unit :=
  match p with
  | PRefresh k => refreshMessages_done o k
  | PStat imageFile imageName m =>
      found <- fileExists imageFile ;;
      r <- fetchImage_stat found imageFile imageName m ;;
      match r with
      | Resolved imageFile => notify m imageFile
      | Suspended => ret tt
      end
  | PIcon imageFile imageName m =>
      r <- fetchImage_done o imageFile imageName ;;
      notify m r
  | PNotify => notify_done o
  | PHead k => updateHead_done o k
  end.

Definition fire (cb : TimerCallback) : M unit :=
  match cb with
  | KeepAliveExpired => keepAlive_expired
  | Retry => retry_expired
  end.

(** Node's timers run a callback after [delay] milliseconds when [delay] is
    between 1 and [TIMEOUT_MAX], and after 1 millisecond for any other value,
    [NaN] included. *)
Definition TIMEOUT_MAX : Z := 2147483647.

Definition effective_delay (d : option Z) : Z :=
  match d with
  | Some d => if (1 <=? d) && (d <=? TIMEOUT_MAX) then d else 1
  | None => 1
  end.

Definition due (t : Timer) : Z := armedAt t + effective_delay (delay t).

Definition find_timer (h : nat) (l : list Timer) : option Timer :=
  find (fun t => Nat.eqb (handle t) h) l.

(** The list without its [i]-th element. *)
Definition drop_nth {A} (i : nat) (l : list A) : list A :=
  (firstn i l ++ skipn (S i) l)%list.

(** What the event loop can deliver: a call of the public [connect()], the
    passing of time, the four socket events, a timer, the end of the [i]-th
    outstanding I/O. *)
Inductive Event :=
| Call_connect
| Elapse (ms : Z)
| Ws_open (s : nat)
| Ws_message (s : nat) (data : string)
| Ws_error (s : nat) (stack : string)
| Ws_close (s : nat)
| Timer_fires (h : nat)
| Io_done (i : nat) (o : Outcome).

Definition listening (s : nat) (st : State) : bool :=
  existsb (Nat.eqb s) (listeners (node st)).

(** One turn of the event loop; [None] when the event cannot happen in
    [st]: a socket without listeners is silent, a timer fires only if it is
    pending and due, and [Io_done i o] ends the [i]-th outstanding I/O, if
    there is one. *)
Definition step (e : Event) (st : State) : option State :=
  match e with
  | Call_connect => Some (exec connect st)
  | Elapse ms =>
      if 0 <=? ms
      then Some (exec (modify_node (fun n => set_now (now n + ms) n)) st)
      else None
  | Ws_open s =>
      if listening s st then Some (exec on_open st) else None
  | Ws_message s data =>
      if listening s st then Some (exec (on_message data) st) else None
  | Ws_error s stack =>
      if listening s st then Some (exec (on_error stack) st) else None
  | Ws_close s =>
      if listening s st then Some (exec on_close st) else None
  | Timer_fires h =>
      match find_timer h (timers (node st)) with
      | Some t =>
          if due t <=? now (node st) then
            Some (exec (modify_node (fun n =>
                          set_timers (cancel (Some h) (timers n)) n) ;;
                        fire (callback t)) st)
          else None
      | None => None
      end
  | Io_done i o =>
      match nth_error (inflight (node st)) i with
      | Some p =>
          Some (exec (modify_node (fun n =>
                        set_inflight (drop_nth i (inflight n)) n) ;;
                      complete p o) st)
      | None => None
      end
  end.

Fixpoint run (es : list Event) (st : State) : option State :=
  match es with
  | [] => Some st
  | e :: es =>
      match step e st with
      | Some st' => run es st'
      | None => None
      end
  end.

(** [await this.fetchImage(imageName)] with nothing else happening in
    between.  The [stat] it starts is the newest outstanding I/O and ends
    first; if the file was not there, a download has taken its place and ends
    with outcome [o].  [m] is the message being dispatched. *)
Definition request_icon (imageName : string) (m : IPushoverMessage)
    (o : Outcome) (st : State) : option State :=
  let (p, st1) := fetchImage imageName m st in
  match p with
  | Resolved _ => Some st1
  | Suspended =>
      let i := List.length (inflight (node st)) in
      match step (Io_done i o) st1 with
      | Some st2 =>
          match nth_error (inflight (node st2)) i with
          | Some (PIcon _ _ _) => step (Io_done i o) st2
          | _ => Some st2
          end
      | None => None
      end
  end.

(** ** Observations *)

Definition cursor (st : State) : Z := lastMessageId (this st).

Definition is_download (e : Effect) : bool :=
  match e with
  | HttpsRequest (GetIcon _ _) => true
  | _ => false
  end.

Definition downloads (st : State) : nat :=
  List.length (filter is_download (trace (node st))).

(** The body of a forward: what [notify] writes to the destination. *)
Definition forward_of (m : IPushoverMessage) : string * string * Z :=
  (title m, message m, gotifyPriority (priority m)).

Fixpoint forwards (tr : list Effect) : list (string * string * Z) :=
  match tr with
  | [] => []
  | HttpsRequest (PostGotify _ _ t b p) :: tr => (t, b, p) :: forwards tr
  | _ :: tr => forwards tr
  end.

Fixpoint acknowledged (tr : list Effect) : list Z :=
  match tr with
  | [] => []
  | HttpsRequest (PostUpdateHighest _ _ _ _ i) :: tr => i :: acknowledged tr
  | _ :: tr => acknowledged tr
  end.

(** The messages whose callback is suspended in [fetchImage]. *)
Fixpoint awaiting (l : list Pending) : list IPushoverMessage :=
  match l with
  | [] => []
  | PStat _ _ m :: l => m :: awaiting l
  | PIcon _ _ m :: l => m :: awaiting l
  | _ :: l => awaiting l
  end.

(** The value of [lastMessage] when the [forEach] of [handleMessages] is
    over. *)
Definition highest (ms : list IPushoverMessage) : option IPushoverMessage :=
  fold_left track ms None.

(** The messages of a batch the dispatcher lets through. *)
Definition above (c : Z) (ms : list IPushoverMessage) : list IPushoverMessage :=
  filter (fun m => c <? id m) ms.

Definition no_refresh (p : Pending) : bool :=
  match p with
  | PRefresh _ => false
  | _ => true
  end.


(** The [stat] a dispatched message waits for. *)
Definition stat_of (dir : string) (m : IPushoverMessage) : Pending :=
  PStat (Path_join dir (icon_of m)) (icon_of m) m.

(** What the dispatcher has sent, and what the suspended callbacks will
    send. *)
Definition sent (st : State) : list (string * string * Z) :=
  forwards (trace (node st)).


(** What happened between [st] and [st']: the forwards [fw] were sent
    (newest first), the callbacks of [sus] were suspended in [fetchImage], the
    ids [acks] were acknowledged (newest first); no refresh was started and
    the settings are the same. *)
Definition delta (st st' : State) (fw : list (string * string * Z))
    (sus : list IPushoverMessage) (acks : list Z) : Prop :=
  sent st' = (fw ++ sent st)%list /\
  awaiting (inflight (node st')) =
    (awaiting (inflight (node st)) ++ sus)%list /\
  acknowledged (trace (node st')) =
    (acks ++ acknowledged (trace (node st)))%list /\
  forallb no_refresh (inflight (node st')) =
    forallb no_refresh (inflight (node st)) /\
  settings (this st') = settings (this st).

(** The socket the client holds and the sockets that have its listeners. *)
Definition link (st : State) : option nat * list nat :=
  (wsClient (this st), listeners (node st)).

(** The listeners are exactly on the socket the client holds. *)
Definition attached (st : State) : Prop :=
  listeners (node st) =
  match wsClient (this st) with
  | Some s => [s]
  | None => []
  end.

Definition pending (cb : TimerCallback) (st : State) : list Timer :=
  filter (fun t => match callback t, cb with
                   | KeepAliveExpired, KeepAliveExpired => true
                   | Retry, Retry => true
                   | _, _ => false
                   end) (timers (node st)).

(** The pending keep-alive timers and the handle the client holds. *)
Definition kobs (st : State) : list Timer * option nat :=
  (pending KeepAliveExpired st, keepAlive (this st)).

(** At most one keep-alive timer is pending, and it is the one whose handle
    the client holds. *)
Definition one_keepAlive (st : State) : Prop :=
  match pending KeepAliveExpired st with
  | [] => True
  | [t] => keepAlive (this st) = Some (handle t)
  | _ => False
  end.

(** ** Predicates on method bodies *)

(** [m] leaves the observation [f] of the state alone. *)
Definition preserves {X} (f : State -> X) {A} (m : M A) : Prop :=
  forall st, f (snd (m st)) = f st.

(** [m] keeps the property [P] of the state. *)
Definition maintains (P : State -> Prop) {A} (m : M A) : Prop :=
  forall st, P st -> P (snd (m st)).

(** [m] never lowers the cursor. *)
Definition grows {A} (m : M A) : Prop :=
  forall st, cursor st <= cursor (snd (m st)).

(** ** Sample data *)

Definition sample_settings : ISettings :=
  {| deviceId := "device"; secret := "secret";
     gotifyHost := "gotify.example.com"; gotifyToken := "token";
     imageCache := None; wsHost := None; iconHost := None;
     apiHost := None; apiPath := None; keepAliveTimeout := None |}.

Definition sample_settings_cache : ISettings :=
  {| deviceId := "device"; secret := "secret";
     gotifyHost := "gotify.example.com"; gotifyToken := "token";
     imageCache := Some "/var/cache/p2g"; wsHost := None; iconHost := None;
     apiHost := None; apiPath := None; keepAliveTimeout := None |}.

Definition sample_message (i : Z) : IPushoverMessage :=
  {| id := i; title := string_of_Z i; message := "body"; app := "app"; aid := 7;
     icon := None; date := 0; priority := 0; acked := 0; umid := i |}.

(** The batch of the specification's example. *)
Definition sample_batch : list IPushoverMessage :=
  [sample_message 5; sample_message 3; sample_message 9; sample_message 1].

Definition ok (ms : list IPushoverMessage) : Outcome :=
  Responded 200 "" (inr ms).

Definition or_else (o : option State) (d : State) : State :=
  match o with
  | Some st => st
  | None => d
  end.

(** The state a freshly built client is in after the events [es]. *)
Definition reached (es : list Event) (s : ISettings) (cached : list string)
  : State :=
  or_else (run es (boot s cached)) (boot s cached).

(** Connected and logged in, message 4 forwarded and acknowledged, nothing
    outstanding. *)
Definition caught_up : list Event :=
  [Call_connect; Ws_open 0; Io_done 0 (ok [sample_message 4]);
   Io_done 0 (ok []); Io_done 0 (ok [])].

(** The same with an image cache directory: the icon of message 4 has been
    downloaded on the way. *)
Definition caught_up_cache : State :=
  reached (caught_up ++ [Io_done 0 (ok []); Io_done 0 (ok [])])
          sample_settings_cache [].


(** A second [connect()] while the retry timer of a failed session is
    pending, and that session failing too. *)
Definition connect_twice : list Event :=
  [Call_connect; Ws_error 0 "ECONNREFUSED";
   Call_connect; Ws_error 2 "ECONNREFUSED"].

(** ** Further observations *)

(** The part of the state that the dispatcher and the cursor updater leave
    alone: the settings, the connection fields, the clock, the listeners and
    the timers.  [core] adds what the invariants below look at: the
    acknowledgments made, the cursor, the sockets created and terminated. *)
Definition shell (st : State) :=
  (settings (this st), wsClient (this st), lastConnection (this st),
   keepAlive (this st), retry (this st),
   now (node st), listeners (node st), timers (node st), fresh (node st)).

(** The sockets created and the sockets terminated so far, newest first. *)
Fixpoint created (tr : list Effect) : list nat :=
  match tr with
  | [] => []
  | NewWebSocket s _ :: tr => s :: created tr
  | _ :: tr => created tr
  end.

Fixpoint terminated (tr : list Effect) : list nat :=
  match tr with
  | [] => []
  | WsTerminate s :: tr => s :: terminated tr
  | _ :: tr => terminated tr
  end.

Definition core (st : State) :=
  (shell st, acknowledged (trace (node st)), cursor st,
   created (trace (node st)), terminated (trace (node st))).



(** The acknowledgments made and the cursor. *)
Definition aobs (st : State) : list Z * Z :=
  (acknowledged (trace (node st)), cursor st).

(** Nothing has happened yet: the client was built and never connected. *)
Definition pristine (st : State) : Prop :=
  wsClient (this st) = None /\ lastConnection (this st) = None /\
  listeners (node st) = [] /\ timers (node st) = [] /\
  inflight (node st) = [].

(** A pending timer carries a number as its delay: the configured timeout
    [T] for a keep-alive timer, at most [T] for a retry timer. *)
Definition timer_ok (T : Z) (t : Timer) : Prop :=
  match callback t with
  | KeepAliveExpired => delay t = Some T
  | Retry => exists d, delay t = Some d /\ d <= T
  end.

(** The client has connected at some time not in the future, and its timers
    are as [timer_ok] says. *)
Definition paced (T : Z) (st : State) : Prop :=
  keepAliveTimeout (settings (this st)) = Some T /\
  (exists L, lastConnection (this st) = Some L /\ L <= now (node st)) /\
  Forall (timer_ok T) (timers (node st)).

(** The acknowledgments made so far, newest first, are in strictly
    descending order, all positive, and the cursor is the newest of them, 0
    if none. *)
Definition acked_in_order (st : State) : Prop :=
  Sorted Z.gt (acknowledged (trace (node st))) /\
  cursor st = hd 0 (acknowledged (trace (node st))) /\
  Forall (fun i => 0 < i) (acknowledged (trace (node st))).

(** Timer handles are distinct and were all handed out already. *)
Definition handles_fresh (st : State) : Prop :=
  NoDup (map handle (timers (node st))) /\
  Forall (fun t => (handle t < fresh (node st))%nat) (timers (node st)).

(** The events that tear the session down: an error or a close on the
    socket, a frame that is neither ["!"] nor ["#"], the keep-alive timer. *)
Definition tears_down (e : Event) (st : State) : bool :=
  match e with
  | Ws_error s _ | Ws_close s => listening s st
  | Ws_message s data =>
      listening s st && negb (String.eqb data "!")
      && negb (String.eqb data "#")
  | Timer_fires h =>
      match find_timer h (timers (node st)) with
      | Some t =>
          match callback t with
          | KeepAliveExpired => due t <=? now (node st)
          | Retry => false
          end
      | None => false
      end
  | _ => false
  end.

(** A refresh that brings no batch: the request failed, the status is not
    200, or the body did not parse. *)
Definition refresh_failed (o : Outcome) : bool :=
  match o with
  | Failed _ => true
  | Responded statusCode _ payload =>
      negb (statusCode =? 200)
      || match payload with
         | inl _ => true
         | inr _ => false
         end
  end.

(** The messages handed to [notify] so far, newest first: [notify] is the
    only place that logs a message as JSON. *)
Fixpoint notified (tr : list Effect) : list IPushoverMessage :=
  match tr with
  | [] => []
  | Log (JSON_stringify m) :: tr => m :: notified tr
  | _ :: tr => notified tr
  end.

(** The messages that got past the test of the dispatcher: those handed to
    [notify] and those whose callback is still suspended in [fetchImage]. *)
Definition dispatched (st : State) : list IPushoverMessage :=
  (notified (trace (node st)) ++ awaiting (inflight (node st)))%list.

(** What the dispatcher and the cursor updater have done. *)
Record Dispatch := {
  handed : list IPushoverMessage;
  suspended : list IPushoverMessage;
  head : Z;
  acks : list Z;
  posted : list (string * string * Z)
}.

Definition dobs (st : State) : Dispatch :=
  {| handed := notified (trace (node st));
     suspended := awaiting (inflight (node st));
     head := cursor st;
     acks := acknowledged (trace (node st));
     posted := sent st |}.

(** The messages handed to [notify] and the forwards posted. *)
Definition pobs (st : State)
  : list IPushoverMessage * list (string * string * Z) :=
  (notified (trace (node st)), sent st).

(** The state in which the callback of the [i]-th outstanding I/O runs. *)
Definition ended (i : nat) (st : State) : State :=
  {| this := this st;
     node := set_inflight (drop_nth i (inflight (node st))) (node st) |}.

(** Whatever was dispatched is at or below the cursor. *)
Definition below_cursor (st : State) : Prop :=
  forall m, In m (dispatched st) -> id m <= cursor st.


(** Every forward posted is the forward of a message handed to [notify],
    in the same order. *)
Definition faithful (st : State) : Prop :=
  sent st = map forward_of (notified (trace (node st))).





(** ** The entry point *)

(** [a || b] on values that are a string or [undefined]. *)
Definition js_or (a b : option string) : option string :=
  if truthy a then a else b.

(** The template literal [`${Xdg.cache}/pushover2gotify`]; [undefined]
    prints as ["undefined"]. *)
Definition template_cache (Xdg_cache : option string) : string :=
  match Xdg_cache with
  | Some dir => dir
  | None => "undefined"
  end ++ "/pushover2gotify".

(** The directory the entry point stores in [settings.imageCache]: the one
    of the settings file, the environment variable, the XDG cache
    directory, a directory under [/tmp], whichever is truthy first. *)
Definition main_imageCache (given P2G_IMAGE_CACHE Xdg_cache : option string)
  : option string :=
  js_or (js_or (js_or given P2G_IMAGE_CACHE)
               (Some (template_cache Xdg_cache)))
        (Some "/tmp/pushover2gotify").

Definition set_imageCache (v : option string) (s : ISettings) : ISettings :=
  {| deviceId := deviceId s; secret := secret s;
     gotifyHost := gotifyHost s; gotifyToken := gotifyToken s;
     imageCache := v; wsHost := wsHost s; iconHost := iconHost s;
     apiHost := apiHost s; apiPath := apiPath s;
     keepAliveTimeout := keepAliveTimeout s |}.

(** The entry point from the assignment of [settings.imageCache] on, with
    [settings] as the [try] block before it left them: the directory is
    announced on the console and made, the client built and connected.
    The directory [mkdirp.sync] makes is not a file of the cache, so
    [files] is as it was. *)
Definition main (settings : ISettings)
    (P2G_IMAGE_CACHE Xdg_cache : option string) (cached : list string)
  : State :=
  let dir := main_imageCache (imageCache settings) P2G_IMAGE_CACHE Xdg_cache in
  exec (logger_log ("Initializing image cache "
                    ++ match dir with Some d => d | None => "undefined" end) ;;
        connect)
       (boot (set_imageCache dir settings) cached).

(** * Properties *)

(** ** Reasoning about method bodies *)

Lemma exec_bind {A B} (m : M A) (f : A -> M B) st :
  exec (bind m f) st = exec (f (fst (m st))) (snd (m st)).
Proof. unfold exec, bind. destruct (m st); reflexivity. Qed.

Section Frame.
Context {X : Type} (f : State -> X).

Lemma preserves_ret {A} (a : A) : preserves f (ret a).
Proof. intro st; reflexivity. Qed.

Lemma preserves_bind {A B} (m : M A) (k : A -> M B) :
  preserves f m -> (forall a, preserves f (k a)) -> preserves f (bind m k).
Proof.
  intros Hm Hk st. unfold bind. specialize (Hm st).
  destruct (m st) as [a st1]. simpl in Hm. rewrite Hk. exact Hm.
Qed.

Lemma preserves_self : preserves f self.
Proof. intro st; reflexivity. Qed.

Lemma preserves_Date_now : preserves f Date_now.
Proof. intro st; reflexivity. Qed.

Lemma preserves_fileExists p : preserves f (fileExists p).
Proof. intro st; reflexivity. Qed.

(** From here on [f] only looks at the socket of the client, at its
    cursor and at the sockets that have listeners. *)
Hypothesis f_frame : forall st st',
  wsClient (this st) = wsClient (this st') ->
  lastMessageId (this st) = lastMessageId (this st') ->
  listeners (node st) = listeners (node st') ->
  f st = f st'.

Lemma preserves_gensym : preserves f gensym.
Proof. intro st. apply f_frame; reflexivity. Qed.

Lemma preserves_emit e : preserves f (emit e).
Proof. intro st. apply f_frame; reflexivity. Qed.

Lemma preserves_logger_log s : preserves f (logger_log s).
Proof. apply preserves_emit. Qed.

Lemma preserves_logger_error s : preserves f (logger_error s).
Proof. apply preserves_emit. Qed.

Lemma preserves_setTimeout cb d : preserves f (setTimeout cb d).
Proof. intro st. apply f_frame; reflexivity. Qed.

Lemma preserves_clearTimeout h : preserves f (clearTimeout h).
Proof. intro st. apply f_frame; reflexivity. Qed.

Lemma preserves_Https_request r p : preserves f (Https_request r p).
Proof. intro st. apply f_frame; reflexivity. Qed.

Lemma preserves_File_stat path p : preserves f (File_stat path p).
Proof. intro st. apply f_frame; reflexivity. Qed.

Lemma preserves_File_createWriteStream path :
  preserves f (File_createWriteStream path).
Proof. intro st. apply f_frame; reflexivity. Qed.

Lemma preserves_set_timers g :
  preserves f (modify_node (fun n => set_timers (g n) n)).
Proof. intro st. apply f_frame; reflexivity. Qed.

Lemma preserves_set_inflight g :
  preserves f (modify_node (fun n => set_inflight (g n) n)).
Proof. intro st. apply f_frame; reflexivity. Qed.

Lemma preserves_set_now g :
  preserves f (modify_node (fun n => set_now (g n) n)).
Proof. intro st. apply f_frame; reflexivity. Qed.

Lemma preserves_set_lastConnection v :
  preserves f (modify_this (set_lastConnection v)).
Proof. intro st. apply f_frame; reflexivity. Qed.

Lemma preserves_set_keepAlive v :
  preserves f (modify_this (set_keepAlive v)).
Proof. intro st. apply f_frame; reflexivity. Qed.

Lemma preserves_set_retry v : preserves f (modify_this (set_retry v)).
Proof. intro st. apply f_frame; reflexivity. Qed.

Hint Resolve preserves_ret preserves_self preserves_Date_now
  preserves_fileExists preserves_gensym preserves_emit
  preserves_logger_log preserves_logger_error preserves_setTimeout
  preserves_clearTimeout preserves_Https_request preserves_File_stat
  preserves_File_createWriteStream preserves_set_timers
  preserves_set_inflight preserves_set_now preserves_set_lastConnection
  preserves_set_keepAlive preserves_set_retry : core.

(** Splits a method body along its binds and branches and closes the
    leaves with the hints. *)
Ltac frame :=
  repeat first
    [ solve [ auto ]
    | match goal with
      | |- preserves _ (match ?x with _ => _ end) => destruct x
      end
    | apply preserves_bind; [ | intro ] ].

(** The segments that touch neither the socket nor the cursor. *)

Lemma preserves_resetKeepAlive : preserves f resetKeepAlive.
Proof. unfold resetKeepAlive. frame. Qed.

Hint Resolve preserves_resetKeepAlive : core.

Lemma preserves_resume k : preserves f (resume k).
Proof. unfold resume. frame. Qed.

Lemma preserves_refreshMessages k : preserves f (refreshMessages k).
Proof. unfold refreshMessages. frame. Qed.

Lemma preserves_notify m i : preserves f (notify m i).
Proof. unfold notify. frame. Qed.

Lemma preserves_notify_done o : preserves f (notify_done o).
Proof. unfold notify_done. frame. Qed.

Lemma preserves_fetchImage n m : preserves f (fetchImage n m).
Proof. unfold fetchImage. frame. Qed.

Lemma preserves_fetchImage_stat b i n m :
  preserves f (fetchImage_stat b i n m).
Proof. unfold fetchImage_stat. frame. Qed.

Lemma preserves_fetchImage_done o i n : preserves f (fetchImage_done o i n).
Proof. unfold fetchImage_done. frame. Qed.

Hint Resolve preserves_resume preserves_refreshMessages preserves_notify
  preserves_notify_done preserves_fetchImage preserves_fetchImage_stat
  preserves_fetchImage_done : core.

Lemma preserves_updateHead_done o k : preserves f (updateHead_done o k).
Proof. unfold updateHead_done. frame. Qed.

Lemma preserves_notify_all l : preserves f (notify_all l).
Proof. induction l as [|[m i] l IH]; simpl; frame. Qed.

Lemma preserves_forEach ms : forall last ready,
  preserves f (forEach ms last ready).
Proof. induction ms as [|m ms IH]; intros; simpl; frame. Qed.
End Frame.

Create HintDb frame.
#[export] Hint Resolve preserves_ret preserves_self preserves_Date_now
  preserves_fileExists preserves_gensym preserves_emit
  preserves_logger_log preserves_logger_error preserves_setTimeout
  preserves_clearTimeout preserves_Https_request preserves_File_stat
  preserves_File_createWriteStream preserves_set_timers preserves_set_inflight
  preserves_set_now preserves_set_lastConnection preserves_set_keepAlive
  preserves_set_retry preserves_resetKeepAlive preserves_resume
  preserves_refreshMessages preserves_notify preserves_notify_done
  preserves_fetchImage preserves_fetchImage_stat preserves_fetchImage_done
  preserves_updateHead_done preserves_notify_all preserves_forEach : frame.

Ltac frame :=
  repeat first
    [ solve [ eauto with frame ]
    | match goal with
      | |- preserves _ (match ?x with _ => _ end) => destruct x
      end
    | apply preserves_bind; [ | intro ] ].

(** *** The cursor is only written by [updateHead] *)

Lemma cursor_frame st st' :
  wsClient (this st) = wsClient (this st') ->
  lastMessageId (this st) = lastMessageId (this st') ->
  listeners (node st) = listeners (node st') ->
  cursor st = cursor st'.
Proof. unfold cursor. intros _ -> _. reflexivity. Qed.

Lemma cursor_modify_node g : preserves cursor (modify_node g).
Proof. intro st; reflexivity. Qed.

Lemma cursor_set_wsClient v : preserves cursor (modify_this (set_wsClient v)).
Proof. intro st; reflexivity. Qed.

#[export] Hint Resolve cursor_frame cursor_modify_node cursor_set_wsClient
  : frame.

Lemma cursor_connect : preserves cursor connect.
Proof. unfold connect. frame. Qed.

Lemma cursor_reconnect : preserves cursor reconnect.
Proof. unfold reconnect. frame. Qed.

#[export] Hint Resolve cursor_connect cursor_reconnect : frame.

(** *** [updateHead], case by case *)

Lemma updateHead_skip m k st :
  (forall x, m = Some x -> id x <= cursor st) ->
  updateHead m k st = (true, st).
Proof.
  intros H. unfold updateHead, bind, self.
  destruct m as [x|]; [ | reflexivity ].
  specialize (H x eq_refl). unfold cursor in H.
  destruct (Z.leb_spec (id x) (lastMessageId (this st))); [ reflexivity | lia ].
Qed.

Lemma updateHead_write x k st :
  cursor st < id x ->
  updateHead (Some x) k st =
  (false,
   {| this := set_lastMessageId (id x) (this st);
      node :=
        {| now := now (node st);
           listeners := listeners (node st);
           timers := timers (node st);
           inflight := inflight (node st) ++ [PHead k];
           files := files (node st);
           fresh := fresh (node st);
           trace :=
             HttpsRequest
               (PostUpdateHighest (apiHost (settings (this st)))
                  (apiPath (settings (this st)))
                  (deviceId (settings (this st)))
                  (secret (settings (this st))) (id x))
             :: Log (Str ("Updating head position to " ++ string_of_Z (id x)))
             :: trace (node st) |} |}).
Proof.
  intros H. unfold updateHead, bind, self. unfold cursor in H.
  destruct (Z.leb_spec (id x) (lastMessageId (this st))); [ lia | reflexivity ].
Qed.

Lemma preserves_grows {A} (m : M A) : preserves cursor m -> grows m.
Proof. intros H st. rewrite H. lia. Qed.

Lemma grows_bind {A B} (m : M A) (k : A -> M B) :
  grows m -> (forall a, grows (k a)) -> grows (bind m k).
Proof.
  intros Hm Hk st. unfold bind. specialize (Hm st).
  destruct (m st) as [a st1]. simpl in Hm. specialize (Hk a st1). lia.
Qed.

Lemma grows_updateHead m k : grows (updateHead m k).
Proof.
  intro st. destruct m as [x|].
  - destruct (Z.le_gt_cases (id x) (cursor st)) as [H|H].
    + rewrite updateHead_skip; [ simpl; lia | ]. intros y [= <-]. exact H.
    + rewrite updateHead_write by lia. unfold cursor in *. simpl. lia.
  - rewrite updateHead_skip; [ simpl; lia | discriminate ].
Qed.

Lemma grows_handleMessages ms k : grows (handleMessages ms k).
Proof.
  unfold handleMessages.
  apply grows_bind; [ apply preserves_grows; auto with frame | intro r ].
  apply grows_bind; [ apply grows_updateHead | intro settled ].
  apply preserves_grows. frame.
Qed.

Lemma grows_refreshMessages_done o k : grows (refreshMessages_done o k).
Proof.
  unfold refreshMessages_done.
  destruct o as [stack | code data [stack | ms]];
    try destruct (code =? 200);
    try apply grows_handleMessages; apply preserves_grows; frame.
Qed.

Lemma grows_complete p o : grows (complete p o).
Proof.
  destruct p; simpl;
    try apply grows_refreshMessages_done; apply preserves_grows; frame.
Qed.

Lemma grows_fire cb : grows (fire cb).
Proof.
  destruct cb; apply preserves_grows;
    unfold fire, keepAlive_expired, retry_expired; frame.
Qed.

Lemma grows_handlers :
  grows on_open /\ (forall d, grows (on_message d)) /\
  (forall s, grows (on_error s)) /\ grows on_close.
Proof.
  repeat split; intros; apply preserves_grows;
    unfold on_open, on_message, on_error, on_close; frame.
Qed.

Lemma step_cursor e st st' : step e st = Some st' -> cursor st <= cursor st'.
Proof.
  destruct grows_handlers as (Ho & Hm & He & Hc).
  destruct e; simpl; intros H.
  - injection H as <-. apply (preserves_grows _ cursor_connect).
  - destruct (0 <=? ms); [ injection H as <- | discriminate ].
    unfold exec, cursor; simpl; lia.
  - destruct (listening s st); [ injection H as <- | discriminate ]. apply Ho.
  - destruct (listening s st); [ injection H as <- | discriminate ]. apply Hm.
  - destruct (listening s st); [ injection H as <- | discriminate ]. apply He.
  - destruct (listening s st); [ injection H as <- | discriminate ]. apply Hc.
  - destruct (find_timer h (timers (node st))) as [t|]; [ | discriminate ].
    destruct (due t <=? now (node st)); [ injection H as <- | discriminate ].
    apply grows_bind;
      [ apply preserves_grows; frame | intro; apply grows_fire ].
  - destruct (nth_error (inflight (node st)) i) as [p|]; [ | discriminate ].
    injection H as <-.
    apply grows_bind;
      [ apply preserves_grows; frame | intro; apply grows_complete ].
Qed.

Lemma run_cursor es : forall st st',
  run es st = Some st' -> cursor st <= cursor st'.
Proof.
  induction es as [|e es IH]; simpl; intros st st' H.
  - injection H as <-. lia.
  - destruct (step e st) as [st1|] eqn:E; [ | discriminate ].
    apply step_cursor in E. apply IH in H. lia.
Qed.

(** ** Cursor updater *)

(** C3.  [updateHead] does nothing at all (same state, hence no request, no
    log line, no write) when its argument is absent or carries an id that is
    not above the cursor; and the cursor, which is 0 in a freshly built
    client, never decreases along any sequence of events of the process. *)
Theorem updateHead_noop_and_cursor_monotone :
  forall (m : option IPushoverMessage) (k : Cont) (st0 : State)
         (s : ISettings) (cached : list string)
         (es es' : list Event) (st st' : State),
    (forall x, m = Some x -> id x <= cursor st0) ->
    run es (boot s cached) = Some st ->
    run es' st = Some st' ->
    updateHead m k st0 = (true, st0) /\
    cursor (boot s cached) = 0 /\
    0 <= cursor st /\
    cursor st <= cursor st'.
Proof.
  intros m k st0 s cached es es' st st' Hm Hes Hes'.
  split; [ apply updateHead_skip; exact Hm | ].
  split; [ reflexivity | ].
  split.
  - apply run_cursor in Hes. exact Hes.
  - apply run_cursor in Hes'. exact Hes'.
Qed.

(** C1, as the code has it.  When the id is above the cursor, the cursor is
    written as soon as [updateHead] runs, before the acknowledgment POST is
    even issued; the POST is then in flight, and whatever its outcome
    (success, another status, a network error) the cursor keeps the new
    value: a failure is logged and nothing is rolled back. *)
Theorem updateHead_writes_cursor_before_reply :
  forall (x : IPushoverMessage) (k : Cont) (st : State) (o : Outcome),
    cursor st < id x ->
    let st1 := exec (updateHead (Some x) k) st in
    cursor st1 = id x /\
    acknowledged (trace (node st1)) = id x :: acknowledged (trace (node st)) /\
    inflight (node st1) = (inflight (node st) ++ [PHead k])%list /\
    cursor (exec (complete (PHead k) o) st1) = id x /\
    cursor st <= cursor (exec (complete (PHead k) o) st1).
Proof.
  intros x k st o H st1. subst st1. unfold exec at 1 2 3 4.
  rewrite updateHead_write by exact H. simpl snd.
  split; [ reflexivity | ].
  split; [ reflexivity | ].
  split; [ reflexivity | ].
  assert (E : cursor (exec (complete (PHead k) o)
                       (exec (updateHead (Some x) k) st)) = id x).
  { unfold exec. simpl complete.
    rewrite (preserves_updateHead_done cursor cursor_frame).
    rewrite updateHead_write by exact H. reflexivity. }
  split; [ exact E | rewrite E; lia ].
Qed.

(** ** Dispatcher: priority and icon *)

(** C4.  The priority translation is a total function with the table
    -2 -> 1, -1 -> 3, 0 -> 5, 1 -> 10 and 5 for every other integer. *)
Theorem gotifyPriority_table :
  forall p : Z,
    gotifyPriority p =
      (if p =? -2 then 1
       else if p =? -1 then 3
       else if p =? 0 then 5
       else if p =? 1 then 10
       else 5) /\
    map gotifyPriority [-2; -1; 0; 1; 7] = [1; 3; 5; 10; 5].
Proof.
  intro p. split; [ | reflexivity ].
  destruct p as [|q|q]; try reflexivity;
    destruct q as [q|q|]; try reflexivity; destruct q; reflexivity.
Qed.

(** C10.  A message whose icon is absent or empty gets ["pushover.png"] when
    its application id is 1 and ["default.png"] for any other application
    id; a non-empty icon is used as it is. *)
Theorem icon_of_default :
  forall m : IPushoverMessage,
    (icon m = None \/ icon m = Some "" ->
     aid m = 1 -> icon_of m = "pushover.png") /\
    (icon m = None \/ icon m = Some "" ->
     aid m <> 1 -> icon_of m = "default.png") /\
    (forall s, icon m = Some s -> s <> "" -> icon_of m = s).
Proof.
  intro m. unfold icon_of. repeat split.
  - intros [-> | ->] ->; reflexivity.
  - intros [-> | ->] Ha; simpl;
      (destruct (Z.eqb_spec (aid m) 1); [ contradiction | reflexivity ]).
  - intros s -> Hs. simpl.
    destruct (String.eqb_spec s ""); [ contradiction | reflexivity ].
Qed.

(** ** Connection manager *)

(** C8.  With a socket already in [wsClient], [connect()] returns at once:
    the whole state, trace included, is what it was, so no field changed
    and no socket was opened. *)
Theorem connect_noop_when_active :
  forall (st : State) (s : nat),
    wsClient (this st) = Some s ->
    connect st = (tt, st) /\ step Call_connect st = Some st.
Proof.
  intros st s H.
  assert (E : connect st = (tt, st)).
  { unfold connect, bind, self. rewrite H. reflexivity. }
  split; [ exact E | ]. simpl. unfold exec. rewrite E. reflexivity.
Qed.

(** *** Sockets and listeners *)

Lemma link_frame st st' :
  wsClient (this st) = wsClient (this st') ->
  lastMessageId (this st) = lastMessageId (this st') ->
  listeners (node st) = listeners (node st') ->
  link st = link st'.
Proof. unfold link. intros -> _ ->. reflexivity. Qed.

Lemma link_set_lastMessageId v :
  preserves link (modify_this (set_lastMessageId v)).
Proof. intro st; reflexivity. Qed.

#[export] Hint Resolve link_frame link_set_lastMessageId : frame.

Lemma link_updateHead m k : preserves link (updateHead m k).
Proof. unfold updateHead. frame. Qed.

#[export] Hint Resolve link_updateHead : frame.

Lemma link_handleMessages ms k : preserves link (handleMessages ms k).
Proof. unfold handleMessages. frame. Qed.

#[export] Hint Resolve link_handleMessages : frame.

Lemma link_refreshMessages_done o k : preserves link (refreshMessages_done o k).
Proof. unfold refreshMessages_done. frame. Qed.

#[export] Hint Resolve link_refreshMessages_done : frame.

(** No I/O that ends, however it ends, touches the socket. *)
Lemma link_complete p o : preserves link (complete p o).
Proof. destruct p; simpl; frame. Qed.

Lemma attached_link st st' : link st = link st' -> attached st -> attached st'.
Proof. unfold link, attached. intros [= <- <-] H. exact H. Qed.

Lemma preserves_attached {A} (m : M A) :
  preserves link m -> forall st, attached st -> attached (snd (m st)).
Proof. intros H st. apply attached_link. symmetry. apply H. Qed.

(** [reconnect], field by field. *)
Lemma reconnect_fields st :
  let st' := exec reconnect st in
  let d := js_sub (keepAliveTimeout (settings (this st)))
                  (js_sub (Some (now (node st))) (lastConnection (this st))) in
  wsClient (this st') = None /\
  retry (this st') = Some (fresh (node st)) /\
  listeners (node st') =
    match wsClient (this st) with
    | Some s => filter (fun x => negb (Nat.eqb x s)) (listeners (node st))
    | None => listeners (node st)
    end /\
  timers (node st') =
    (cancel (keepAlive (this st)) (timers (node st)) ++
     [{| handle := fresh (node st); callback := Retry; delay := d;
         armedAt := now (node st) |}])%list /\
  trace (node st') =
    (SetTimeout (fresh (node st)) Retry d ::
     match wsClient (this st) with
     | Some s => [WsTerminate s; WsRemoveAllListeners s]
     | None => []
     end ++ ClearTimeout (keepAlive (this st)) :: trace (node st))%list /\
  now (node st') = now (node st) /\
  inflight (node st') = inflight (node st) /\
  fresh (node st') = S (fresh (node st)).
Proof.
  unfold exec, reconnect, bind, self. simpl.
  destruct (wsClient (this st)) eqn:E; simpl; rewrite ?E;
    repeat split; reflexivity.
Qed.

(** [resetKeepAlive], field by field. *)
Lemma resetKeepAlive_fields st :
  let st' := exec resetKeepAlive st in
  wsClient (this st') = wsClient (this st) /\
  retry (this st') = retry (this st) /\
  keepAlive (this st') = Some (fresh (node st)) /\
  listeners (node st') = listeners (node st) /\
  timers (node st') =
    (cancel (keepAlive (this st)) (timers (node st)) ++
     [{| handle := fresh (node st); callback := KeepAliveExpired;
         delay := keepAliveTimeout (settings (this st));
         armedAt := now (node st) |}])%list /\
  trace (node st') =
    SetTimeout (fresh (node st)) KeepAliveExpired
               (keepAliveTimeout (settings (this st)))
    :: ClearTimeout (keepAlive (this st)) :: trace (node st).
Proof. unfold exec, resetKeepAlive, bind, self. simpl. repeat split. Qed.

Lemma attached_connect st : attached st -> attached (exec connect st).
Proof.
  unfold attached, exec, connect, bind, self. simpl.
  destruct (wsClient (this st)) eqn:E; simpl; rewrite ?E;
    intros ->; reflexivity.
Qed.

Lemma attached_reconnect st : attached st -> attached (exec reconnect st).
Proof.
  intro H. destruct (reconnect_fields st) as (Hw & _ & Hl & _).
  unfold attached in *. rewrite Hw, Hl, H.
  destruct (wsClient (this st)) as [s|]; simpl; [ | reflexivity ].
  rewrite Nat.eqb_refl. reflexivity.
Qed.

Lemma attached_handlers st :
  attached st ->
  attached (exec on_open st) /\ (forall d, attached (exec (on_message d) st)) /\
  (forall s, attached (exec (on_error s) st)) /\ attached (exec on_close st).
Proof.
  intro H. repeat split; intros.
  - apply preserves_attached; [ unfold on_open; frame | exact H ].
  - unfold on_message.
    destruct (String.eqb d "!"); [ | destruct (String.eqb d "#") ].
    + apply preserves_attached; [ frame | exact H ].
    + apply preserves_attached; [ frame | exact H ].
    + unfold exec. unfold bind at 1. simpl. apply attached_reconnect.
      revert H. apply attached_link. reflexivity.
  - unfold on_error, exec, bind at 1 2. simpl. apply attached_reconnect.
    revert H. apply attached_link. reflexivity.
  - unfold on_close, exec, bind at 1. simpl. apply attached_reconnect.
    revert H. apply attached_link. reflexivity.
Qed.

Lemma step_attached e st st' :
  step e st = Some st' -> attached st -> attached st'.
Proof.
  intros H Ha. destruct (attached_handlers st Ha) as (Ho & Hm & He & Hc).
  destruct e; simpl in H.
  - injection H as <-. apply attached_connect, Ha.
  - destruct (0 <=? ms); [ injection H as <- | discriminate ]. exact Ha.
  - destruct (listening s st); [ injection H as <- | discriminate ]. apply Ho.
  - destruct (listening s st); [ injection H as <- | discriminate ]. apply Hm.
  - destruct (listening s st); [ injection H as <- | discriminate ]. apply He.
  - destruct (listening s st); [ injection H as <- | discriminate ]. apply Hc.
  - destruct (find_timer h (timers (node st))) as [t|]; [ | discriminate ].
    destruct (due t <=? now (node st)); [ injection H as <- | discriminate ].
    unfold exec, bind at 1. simpl.
    destruct (callback t); simpl.
    + unfold keepAlive_expired, bind at 1. simpl. apply attached_reconnect.
      revert Ha. apply attached_link. reflexivity.
    + unfold retry_expired, bind at 1 2. simpl. apply attached_connect.
      revert Ha. apply attached_link. reflexivity.
  - destruct (nth_error (inflight (node st)) i) as [p|]; [ | discriminate ].
    injection H as <-. unfold exec, bind at 1. simpl.
    apply preserves_attached; [ apply link_complete | ].
    revert Ha. apply attached_link. reflexivity.
Qed.

Lemma run_attached es : forall st st',
  run es st = Some st' -> attached st -> attached st'.
Proof.
  induction es as [|e es IH]; simpl; intros st st' H Ha.
  - injection H as <-. exact Ha.
  - destruct (step e st) as [st1|] eqn:E; [ | discriminate ].
    eapply IH; [ exact H | ]. eapply step_attached; eassumption.
Qed.

Lemma attached_boot s cached : attached (boot s cached).
Proof. reflexivity. Qed.

Lemma attached_listening st s :
  attached st -> listening s st = true ->
  wsClient (this st) = Some s /\ listeners (node st) = [s].
Proof.
  unfold attached, listening. intros ->.
  destruct (wsClient (this st)) as [s'|]; simpl; [ | discriminate ].
  rewrite orb_false_r. intros E. apply Nat.eqb_eq in E. subst.
  split; reflexivity.
Qed.



(** The handlers of frames are the safe ones.  The ['open'] handler is not:
    when the session is torn down while its refresh is in flight, the rest
    of the handler sends the login on a socket that is no longer there. *)
Lemma login_after_teardown_is_rejected :
  exists st,
    run [Call_connect; Ws_open 0; Ws_close 0; Io_done 0 (ok [])]
        (boot sample_settings []) = Some st /\
    In UnhandledRejection (trace (node st)).
Proof.
  eexists. split; [ vm_compute; reflexivity | ].
  simpl. left. reflexivity.
Qed.

(** ** Icon cache *)

Lemma nth_error_last {A} (l : list A) (x : A) :
  nth_error (l ++ [x]) (List.length l) = Some x.
Proof.
  rewrite nth_error_app2 by apply Nat.le_refl.
  rewrite Nat.sub_diag. reflexivity.
Qed.

Lemma drop_nth_last {A} (l : list A) (x : A) :
  drop_nth (List.length l) (l ++ [x]) = l.
Proof.
  induction l as [|a l IH]; [ reflexivity | ].
  unfold drop_nth in *. simpl. f_equal. exact IH.
Qed.

(** The newest outstanding I/O ends. *)
Lemma step_io_last st l p o :
  inflight (node st) = (l ++ [p])%list ->
  step (Io_done (List.length l) o) st =
  Some (exec (complete p o)
             {| this := this st; node := set_inflight l (node st) |}).
Proof.
  intro H. simpl. rewrite H, nth_error_last.
  unfold exec, bind, modify_node. simpl. rewrite H, drop_nth_last. reflexivity.
Qed.

Lemma truthy_dir dir : dir <> "" -> truthy (Some dir) = true.
Proof.
  intro H. unfold truthy.
  destruct (String.eqb_spec dir ""); [ contradiction | reflexivity ].
Qed.



(** A request for an icon that is in the cache. *)
Lemma request_icon_hit st dir name m o :
  imageCache (settings (this st)) = Some dir -> dir <> "" ->
  existsb (String.eqb (Path_join dir name)) (files (node st)) = true ->
  exists st',
    request_icon name m o st = Some st' /\
    this st' = this st /\
    files (node st') = files (node st) /\
    inflight (node st') = (inflight (node st) ++ [PNotify])%list /\
    trace (node st') =
      HttpsRequest (PostGotify (gotifyHost (settings (this st)))
                      (gotifyToken (settings (this st)))
                      (title m) (message m) (gotifyPriority (priority m)))
      :: Log (JSON_stringify m)
      :: FsStat (Path_join dir name) :: trace (node st).
Proof.
  intros Hc Hd Hf.
  unfold request_icon, fetchImage, bind, self.
  rewrite Hc, (truthy_dir dir Hd). cbn -[step nth_error].
  erewrite step_io_last by reflexivity.
  unfold exec, complete, bind, fileExists. cbn -[step nth_error].
  rewrite Hf. cbn -[step nth_error].
  rewrite nth_error_last.
  eexists. split; [ reflexivity | ]. repeat split.
Qed.


(** ** Dispatcher: batches *)

Lemma track_cases last a :
  (track last a = Some a /\ forall l, last = Some l -> id l < id a) \/
  (track last a = last /\ exists l, last = Some l /\ id a <= id l).
Proof.
  unfold track. destruct last as [l|].
  - destruct (Z.ltb_spec (id l) (id a)).
    + left. split; [ reflexivity | intros ? [= <-]; assumption ].
    + right. split; [ reflexivity | ].
      exists l. split; [ reflexivity | assumption ].
  - left. split; [ reflexivity | discriminate ].
Qed.

Lemma track_fold ms : forall last,
  match fold_left track ms last with
  | None => last = None /\ ms = []
  | Some m =>
      (last = Some m \/ In m ms) /\
      (forall l, last = Some l -> id l <= id m) /\
      (forall x, In x ms -> id x <= id m)
  end.
Proof.
  induction ms as [|a ms IH]; intro last; simpl.
  - destruct last as [l|]; [ | split; reflexivity ].
    split; [ left; reflexivity | ].
    split; [ intros ? [= <-]; lia | intros ? [] ].
  - specialize (IH (track last a)).
    destruct (fold_left track ms (track last a)) as [m|].
    + destruct IH as (Hin & Hl & Hx).
      destruct (track_cases last a) as [[E Hlt] | [E (l & El & Hle)]];
        rewrite E in Hin, Hl.
      * pose proof (Hl a eq_refl) as Ha.
        split; [ | split ].
        -- destruct Hin as [[= <-] | Hin]; right; [ left | right ]; auto.
        -- intros l El. specialize (Hlt l El). lia.
        -- intros x [<- | Hx']; [ exact Ha | apply Hx; exact Hx' ].
      * pose proof (Hl l El) as Hlm.
        split; [ | split ].
        -- destruct Hin as [Hin | Hin]; [ left | right; right ]; assumption.
        -- exact Hl.
        -- intros x [<- | Hx']; [ lia | apply Hx; exact Hx' ].
    + destruct IH as [Ht _].
      destruct (track_cases last a) as [[E _] | [E (l & El & _)]];
        rewrite E in Ht; [ discriminate | congruence ].
Qed.

(** [lastMessage] ends up on a message of the batch with the largest id;
    it stays [undefined] only for the empty batch. *)
Lemma highest_max ms :
  match highest ms with
  | None => ms = []
  | Some m => In m ms /\ forall x, In x ms -> id x <= id m
  end.
Proof.
  unfold highest. pose proof (track_fold ms None) as H.
  destruct (fold_left track ms None) as [m|].
  - destruct H as ([H | H] & _ & Hx); [ discriminate | ]. split; assumption.
  - apply H.
Qed.

Lemma awaiting_app a b : awaiting (a ++ b) = (awaiting a ++ awaiting b)%list.
Proof.
  induction a as [|p a IH]; [ reflexivity | ].
  destruct p; simpl; rewrite IH; reflexivity.
Qed.

Lemma fetchImage_no_cache name m st :
  truthy (imageCache (settings (this st))) = false ->
  fetchImage name m st = (Resolved None, st).
Proof. intro H. unfold fetchImage, bind, self. rewrite H. reflexivity. Qed.

Lemma fetchImage_suspends name m st dir :
  imageCache (settings (this st)) = Some dir -> dir <> "" ->
  fetchImage name m st =
  (Suspended,
   {| this := this st;
      node := push_effect (FsStat (Path_join dir name))
                (set_inflight
                   (inflight (node st) ++ [PStat (Path_join dir name) name m])
                   (node st)) |}).
Proof.
  intros Hc Hd. unfold fetchImage, bind, self.
  rewrite Hc, (truthy_dir dir Hd). reflexivity.
Qed.

(** The loop of [handleMessages] without a cache directory: every callback
    above the cursor has its promise resolved at once; nothing else
    happens. *)
Lemma forEach_no_cache ms : forall last ready st,
  truthy (imageCache (settings (this st))) = false ->
  forEach ms last ready st =
  ((fold_left track ms last,
    (ready ++ map (fun m => (m, None)) (above (cursor st) ms))%list), st).
Proof.
  induction ms as [|m ms IH]; intros last ready st H; simpl.
  - rewrite app_nil_r. reflexivity.
  - unfold bind at 1, self, cursor.
    destruct (lastMessageId (this st) <? id m).
    + unfold bind. rewrite fetchImage_no_cache by exact H.
      rewrite IH by exact H. unfold cursor.
      rewrite <- app_assoc. reflexivity.
    + apply IH. exact H.
Qed.

(** The loop with a cache directory: every callback above the cursor is
    suspended on the [stat] of its icon file. *)
Lemma forEach_cache ms : forall last ready st dir,
  imageCache (settings (this st)) = Some dir -> dir <> "" ->
  fst (forEach ms last ready st) = (fold_left track ms last, ready) /\
  this (snd (forEach ms last ready st)) = this st /\
  inflight (node (snd (forEach ms last ready st))) =
    (inflight (node st) ++ map (stat_of dir) (above (cursor st) ms))%list /\
  sent (snd (forEach ms last ready st)) = sent st /\
  acknowledged (trace (node (snd (forEach ms last ready st)))) =
    acknowledged (trace (node st)).
Proof.
  induction ms as [|m ms IH]; intros last ready st dir Hc Hd.
  - simpl. rewrite app_nil_r. repeat split.
  - assert (Heq : forEach (m :: ms) last ready st =
                  if lastMessageId (this st) <? id m
                  then forEach ms (track last m) ready
                         {| this := this st;
                            node := push_effect
                                      (FsStat (Path_join dir (icon_of m)))
                                      (set_inflight
                                         (inflight (node st) ++ [stat_of dir m])
                                         (node st)) |}
                  else forEach ms (track last m) ready st).
    { simpl. unfold bind at 1, self.
      destruct (lastMessageId (this st) <? id m); [ | reflexivity ].
      unfold bind. rewrite (fetchImage_suspends _ _ _ dir Hc Hd). reflexivity. }
    rewrite Heq. clear Heq. unfold above, cursor. cbn [filter].
    fold (above (lastMessageId (this st)) ms).
    destruct (lastMessageId (this st) <? id m).
    + match goal with
      | |- context [forEach ms ?l ?r ?s] =>
          destruct (IH l r s dir Hc Hd) as (H1 & H2 & H3 & H4 & H5)
      end.
      unfold sent in *. rewrite H1, H2, H3, H4, H5. unfold cursor. simpl.
      rewrite <- app_assoc. repeat split.
    + destruct (IH (track last m) ready st dir Hc Hd)
        as (H1 & H2 & H3 & H4 & H5).
      unfold cursor in H3. unfold sent in *. repeat split; assumption.
Qed.

(** *** Bookkeeping of forwards, suspensions and acknowledgments *)

Lemma delta_refl st : delta st st [] [] [].
Proof. unfold delta. rewrite app_nil_r. repeat split. Qed.

Lemma delta_trans st st1 st2 f1 s1 a1 f2 s2 a2 :
  delta st st1 f1 s1 a1 -> delta st1 st2 f2 s2 a2 ->
  delta st st2 (f2 ++ f1) (s1 ++ s2) (a2 ++ a1).
Proof.
  unfold delta. intros (F1 & S1 & A1 & R1 & C1) (F2 & S2 & A2 & R2 & C2).
  rewrite F2, F1, S2, S1, A2, A1, R2, R1, C2, C1, !app_assoc.
  repeat split.
Qed.

(** Closes a [delta] goal about a segment whose effect is computed by
    unfolding. *)
Ltac ledger :=
  unfold delta, sent, exec; simpl;
  rewrite ?awaiting_app, ?forallb_app; simpl;
  rewrite ?app_nil_r, ?andb_true_r; repeat split.

Lemma delta_notify m f st :
  delta st (exec (notify m f) st) [forward_of m] [] [].
Proof. ledger. Qed.

Lemma delta_resume k st : delta st (exec (resume k) st) [] [] [].
Proof. destruct k; [ | ledger ]. unfold resume. 
  unfold delta, sent, exec, bind, self. simpl.
  destruct (wsClient (this st)); simpl; rewrite app_nil_r; repeat split.
Qed.


Lemma exec_then {A B} (m : M A) (k : M B) st :
  exec (m ;; k) st = exec k (exec m st).
Proof. unfold exec, bind. destruct (m st). reflexivity. Qed.


Lemma delta_notify_all l : forall st,
  delta st (exec (notify_all l) st)
        (rev (map (fun r => forward_of (fst r)) l)) [] [].
Proof.
  induction l as [|[m f] l IH]; intro st; simpl.
  - apply delta_refl.
  - rewrite exec_then.
    change (@nil IPushoverMessage) with ([] ++ @nil IPushoverMessage)%list.
    change (@nil Z) with ([] ++ @nil Z)%list.
    eapply delta_trans; [ apply delta_notify | apply IH ].
Qed.

Lemma delta_updateHead m k st :
  delta st (exec (updateHead m k) st) [] []
        (match m with
         | Some x => if cursor st <? id x then [id x] else []
         | None => []
         end) /\
  cursor (exec (updateHead m k) st) =
    match m with
    | Some x => Z.max (cursor st) (id x)
    | None => cursor st
    end.
Proof.
  unfold exec. destruct m as [x|].
  - destruct (Z.ltb_spec (cursor st) (id x)) as [H|H].
    + rewrite updateHead_write by exact H.
      split; [ ledger | unfold cursor in *; simpl; lia ].
    + rewrite updateHead_skip by (intros ? [= <-]; exact H).
      split; [ apply delta_refl | simpl; lia ].
  - rewrite updateHead_skip by discriminate.
    split; [ apply delta_refl | reflexivity ].
Qed.

Lemma delta_eq st st' f s a f' s' a' :
  delta st st' f s a -> f = f' -> s = s' -> a = a' -> delta st st' f' s' a'.
Proof. intros H <- <- <-. exact H. Qed.

Lemma awaiting_stat_of dir l : awaiting (map (stat_of dir) l) = l.
Proof. induction l as [|m l IH]; simpl; [ | rewrite IH ]; reflexivity. Qed.

Lemma no_refresh_stat_of dir l :
  forallb no_refresh (map (stat_of dir) l) = true.
Proof. induction l as [|m l IH]; simpl; [ reflexivity | exact IH ]. Qed.

Lemma truthy_inv (c : option string) :
  truthy c = true -> exists dir, c = Some dir /\ dir <> "".
Proof.
  destruct c as [dir|]; simpl; [ | discriminate ].
  destruct (String.eqb_spec dir ""); [ discriminate | ].
  intros _. exists dir. split; [ reflexivity | assumption ].
Qed.

(** The loop of [handleMessages] in the ledger: it sends nothing itself; with
    a cache directory it suspends the callbacks above the cursor, without one
    it hands them back ready for [notify]. *)
Lemma delta_forEach ms st :
  let r := forEach ms None [] st in
  fst (fst r) = highest ms /\
  cursor (snd r) = cursor st /\
  delta st (snd r) []
        (if truthy (imageCache (settings (this st)))
         then above (cursor st) ms else []) [] /\
  map (fun x => forward_of (fst x)) (snd (fst r)) =
    (if truthy (imageCache (settings (this st)))
     then [] else map forward_of (above (cursor st) ms)).
Proof.
  intro r. subst r.
  destruct (truthy (imageCache (settings (this st)))) eqn:E.
  - destruct (truthy_inv _ E) as (dir & Hc & Hd).
    destruct (forEach_cache ms None [] st dir Hc Hd)
      as (H1 & H2 & H3 & H4 & H5).
    rewrite H1. simpl. split; [ reflexivity | ].
    split; [ unfold cursor; rewrite H2; reflexivity | ].
    split; [ | reflexivity ].
    unfold delta. rewrite H2, H3, H4, H5, awaiting_app, awaiting_stat_of.
    rewrite forallb_app, no_refresh_stat_of, andb_true_r. repeat split.
  - rewrite forEach_no_cache by exact E. simpl.
    split; [ reflexivity | ]. split; [ reflexivity | ].
    split; [ apply delta_refl | ].
    rewrite map_map. reflexivity.
Qed.

(** A whole batch in the ledger. *)
Lemma delta_handleMessages ms k st :
  let st' := exec (handleMessages ms k) st in
  delta st st'
        (if truthy (imageCache (settings (this st)))
         then [] else rev (map forward_of (above (cursor st) ms)))
        (if truthy (imageCache (settings (this st)))
         then above (cursor st) ms else [])
        (match highest ms with
         | Some x => if cursor st <? id x then [id x] else []
         | None => []
         end) /\
  cursor st' =
    match highest ms with
    | Some x => Z.max (cursor st) (id x)
    | None => cursor st
    end.
Proof.
  intro st'. subst st'. unfold handleMessages.
  rewrite exec_bind.
  destruct (delta_forEach ms st) as (Hh & Hc & Hd & Hr).
  set (r := forEach ms None [] st) in *.
  rewrite exec_bind.
  destruct (delta_updateHead (fst (fst r)) k (snd r)) as (Hu & Hcu).
  set (st2 := snd (updateHead (fst (fst r)) k (snd r))) in *.
  change (exec (updateHead (fst (fst r)) k) (snd r)) with st2 in Hu, Hcu.
  rewrite exec_then.
  pose proof (delta_notify_all (snd (fst r)) st2) as Hn.
  set (st3 := exec (notify_all (snd (fst r))) st2) in *.
  assert (Hk : delta st3
                 (exec (if fst (updateHead (fst (fst r)) k (snd r))
                        then resume k else ret tt) st3) [] [] []).
  { destruct (fst (updateHead (fst (fst r)) k (snd r)));
      [ apply delta_resume | apply delta_refl ]. }
  assert (Hck : cursor (exec (if fst (updateHead (fst (fst r)) k (snd r))
                              then resume k else ret tt) st3) = cursor st2).
  { unfold exec, st3.
    destruct (fst (updateHead (fst (fst r)) k (snd r)));
      [ rewrite (preserves_resume cursor cursor_frame) | simpl ];
      apply (preserves_notify_all cursor cursor_frame). }
  split.
  - eapply delta_eq.
    + exact (delta_trans _ _ _ _ _ _ _ _ _
               (delta_trans _ _ _ _ _ _ _ _ _
                  (delta_trans _ _ _ _ _ _ _ _ _ Hd Hu) Hn) Hk).
    + simpl. rewrite !app_nil_r, Hr.
      destruct (truthy (imageCache (settings (this st)))); reflexivity.
    + rewrite !app_nil_r. reflexivity.
    + simpl. rewrite !app_nil_r, Hh, Hc. reflexivity.
  - rewrite Hck, Hcu, Hh, Hc. reflexivity.
Qed.

(** *** The I/O of a batch runs to its end *)


Lemma awaiting_cons p l : awaiting (p :: l) = (awaiting [p] ++ awaiting l)%list.
Proof. apply (awaiting_app [p] l). Qed.

Lemma drop_nth_cons {A} (a : A) l i :
  drop_nth (S i) (a :: l) = a :: drop_nth i l.
Proof. reflexivity. Qed.

Lemma awaiting_drop_nth l : forall i p,
  nth_error l i = Some p ->
  Permutation (awaiting l) (awaiting [p] ++ awaiting (drop_nth i l)).
Proof.
  induction l as [|a l IH]; intros [|i] p H; simpl in H; try discriminate.
  - injection H as ->. rewrite awaiting_cons. apply Permutation_refl.
  - rewrite drop_nth_cons, (awaiting_cons a l),
      (awaiting_cons a (drop_nth i l)).
    eapply perm_trans; [ apply Permutation_app_head, (IH i p H) | ].
    apply Permutation_app_swap_app.
Qed.
















(** ** Timers *)

Lemma maintains_bind {A B} P (m : M A) (k : A -> M B) :
  maintains P m -> (forall a, maintains P (k a)) -> maintains P (bind m k).
Proof.
  intros Hm Hk st H. unfold bind. specialize (Hm st H).
  destruct (m st) as [a st1]. apply Hk. exact Hm.
Qed.

Lemma one_keepAlive_kobs st st' :
  kobs st' = kobs st -> one_keepAlive st -> one_keepAlive st'.
Proof. unfold kobs, one_keepAlive. intros [= -> ->] H. exact H. Qed.

Lemma preserves_maintains {A} (m : M A) :
  preserves kobs m -> maintains one_keepAlive m.
Proof. intros H st. apply one_keepAlive_kobs, H. Qed.

(** Closes [preserves kobs m] for a segment that leaves the timers and
    [this.keepAlive] alone: along every branch the two are the same terms
    as before. *)
Ltac untouched :=
  repeat first
    [ solve [ intro; reflexivity ]
    | match goal with
      | |- preserves _ (match ?x with _ => _ end) => destruct x
      end
    | apply preserves_bind; [ | intro ] ].

Lemma kobs_connect : preserves kobs connect.
Proof. unfold connect. untouched. Qed.

Lemma kobs_notify_done o : preserves kobs (notify_done o).
Proof. unfold notify_done. untouched. Qed.

Lemma kobs_fetchImage n m : preserves kobs (fetchImage n m).
Proof. unfold fetchImage. untouched. Qed.

Lemma kobs_fetchImage_stat b f n m : preserves kobs (fetchImage_stat b f n m).
Proof. unfold fetchImage_stat. untouched. Qed.

Lemma kobs_fetchImage_done o f n : preserves kobs (fetchImage_done o f n).
Proof. unfold fetchImage_done. untouched. Qed.

Lemma kobs_updateHead m k : preserves kobs (updateHead m k).
Proof. unfold updateHead. untouched. Qed.

Lemma kobs_notify_all l : preserves kobs (notify_all l).
Proof.
  induction l as [|[m f] l IH]; simpl; [ untouched | ].
  apply preserves_bind; [ intro; reflexivity | intro; exact IH ].
Qed.

Lemma kobs_forEach ms : forall last ready,
  preserves kobs (forEach ms last ready).
Proof.
  induction ms as [|m ms IH]; intros; simpl; [ untouched | ].
  apply preserves_bind; [ intro; reflexivity | intro c ].
  destruct (lastMessageId c <? id m); [ | apply IH ].
  apply preserves_bind; [ apply kobs_fetchImage | intros [r|]; apply IH ].
Qed.

Lemma filter_cancel (g : Timer -> bool) h l :
  filter g (cancel h l) = cancel h (filter g l).
Proof.
  destruct h as [h|]; [ | reflexivity ]. unfold cancel.
  induction l as [|t l IH]; [ reflexivity | ]. simpl.
  destruct (Nat.eqb (handle t) h) eqn:E, (g t) eqn:G; simpl;
    rewrite ?E, ?G, IH; reflexivity.
Qed.

Lemma pending_set_timers cb st l :
  pending cb {| this := this st; node := set_timers l (node st) |} =
  filter (fun t => match callback t, cb with
                   | KeepAliveExpired, KeepAliveExpired => true
                   | Retry, Retry => true
                   | _, _ => false
                   end) l.
Proof. reflexivity. Qed.

(** Cancelling any timer keeps the invariant. *)
Lemma one_keepAlive_cancel st h :
  one_keepAlive st ->
  one_keepAlive
    {| this := this st;
       node := set_timers (cancel h (timers (node st))) (node st) |}.
Proof.
  unfold one_keepAlive. rewrite pending_set_timers, filter_cancel.
  fold (pending KeepAliveExpired st). simpl.
  destruct (pending KeepAliveExpired st) as [|t [|t' l]]; intro H.
  - destruct h; exact I.
  - destruct h as [h|]; simpl; [ | exact H ].
    destruct (Nat.eqb (handle t) h); simpl; [ exact I | exact H ].
  - contradiction.
Qed.

Lemma pending_keepAlive_filter st :
  pending KeepAliveExpired st =
  filter (fun t => match callback t with
                   | KeepAliveExpired => true
                   | Retry => false
                   end) (timers (node st)).
Proof.
  unfold pending. apply filter_ext. intro t.
  destruct (callback t); reflexivity.
Qed.

(** Cancelling the timer the client holds leaves no keep-alive timer. *)
Lemma one_keepAlive_cancel_own st :
  one_keepAlive st ->
  filter (fun t => match callback t with
                   | KeepAliveExpired => true
                   | Retry => false
                   end)
         (cancel (keepAlive (this st)) (timers (node st))) = [].
Proof.
  unfold one_keepAlive. rewrite filter_cancel.
  assert (E : filter (fun t => match callback t with
                               | KeepAliveExpired => true
                               | Retry => false
                               end) (timers (node st))
              = pending KeepAliveExpired st).
  { symmetry. apply pending_keepAlive_filter. }
  rewrite E.
  destruct (pending KeepAliveExpired st) as [|t [|t' l]]; intro H.
  - destruct (keepAlive (this st)); reflexivity.
  - rewrite H. simpl. rewrite Nat.eqb_refl. reflexivity.
  - contradiction.
Qed.

Lemma one_keepAlive_resetKeepAlive : maintains one_keepAlive resetKeepAlive.
Proof.
  intros st H. fold (exec resetKeepAlive st).
  destruct (resetKeepAlive_fields st) as (_ & _ & Hk & _ & Ht & _).
  unfold one_keepAlive. rewrite pending_keepAlive_filter, Ht, filter_app.
  rewrite (one_keepAlive_cancel_own st H). simpl. exact Hk.
Qed.

Lemma one_keepAlive_reconnect : maintains one_keepAlive reconnect.
Proof.
  intros st H. fold (exec reconnect st).
  destruct (reconnect_fields st) as (_ & _ & _ & Ht & _).
  unfold one_keepAlive. rewrite pending_keepAlive_filter, Ht, filter_app.
  rewrite (one_keepAlive_cancel_own st H). simpl. exact I.
Qed.

Lemma one_keepAlive_resume k : maintains one_keepAlive (resume k).
Proof.
  destruct k; simpl; [ | intros st H; exact H ].
  apply maintains_bind; [ apply preserves_maintains; untouched | intro ].
  apply maintains_bind; [ apply one_keepAlive_resetKeepAlive | intro ].
  apply preserves_maintains. untouched.
Qed.

Lemma one_keepAlive_handleMessages ms k :
  maintains one_keepAlive (handleMessages ms k).
Proof.
  unfold handleMessages.
  apply maintains_bind; [ apply preserves_maintains, kobs_forEach | intro r ].
  apply maintains_bind;
    [ apply preserves_maintains, kobs_updateHead | intro b ].
  apply maintains_bind; [ apply preserves_maintains, kobs_notify_all | intro ].
  destruct b; [ apply one_keepAlive_resume | intros st H; exact H ].
Qed.

Lemma one_keepAlive_logged {A} (m : M A) :
  maintains one_keepAlive m ->
  (forall s, maintains one_keepAlive (logger_log s ;; m)) /\
  (forall s, maintains one_keepAlive (logger_error s ;; m)).
Proof.
  intro H. split; intro s;
    (apply maintains_bind;
       [ apply preserves_maintains; untouched | intro; exact H ]).
Qed.

Lemma one_keepAlive_complete p o : maintains one_keepAlive (complete p o).
Proof.
  destruct p as [k | f n m | f n m | | k]; simpl.
  - unfold refreshMessages_done.
    destruct o as [stack | code data [stack | ms]];
      try destruct (code =? 200);
      try apply one_keepAlive_handleMessages;
      apply (proj2 (one_keepAlive_logged _
                      (proj2 (one_keepAlive_logged _
                                (one_keepAlive_resume k)) _))).
  - apply preserves_maintains.
    apply preserves_bind; [ intro; reflexivity | intro b ].
    apply preserves_bind; [ apply kobs_fetchImage_stat | intros [r|] ];
      intro; reflexivity.
  - apply preserves_maintains.
    apply preserves_bind;
      [ apply kobs_fetchImage_done | intro; intro; reflexivity ].
  - apply preserves_maintains, kobs_notify_done.
  - unfold updateHead_done.
    apply maintains_bind; [ | intro; apply one_keepAlive_resume ].
    apply preserves_maintains.
    destruct o as [stack | code data payload]; [ | destruct (code =? 200) ];
      untouched.
Qed.

Lemma step_one_keepAlive e st st' :
  step e st = Some st' -> one_keepAlive st -> one_keepAlive st'.
Proof.
  intros H J.
  pose proof (proj1 (one_keepAlive_logged _ one_keepAlive_reconnect)) as Hlog.
  pose proof (proj2 (one_keepAlive_logged _ one_keepAlive_reconnect)) as Herr.
  destruct e; simpl in H.
  - injection H as <-. apply (preserves_maintains _ kobs_connect), J.
  - destruct (0 <=? ms); [ injection H as <- | discriminate ]. exact J.
  - destruct (listening s st); [ injection H as <- | discriminate ]. exact J.
  - destruct (listening s st); [ injection H as <- | discriminate ].
    unfold on_message.
    destruct (String.eqb data "!"); [ exact J | ].
    destruct (String.eqb data "#");
      [ apply one_keepAlive_resetKeepAlive, J | apply Hlog, J ].
  - destruct (listening s st); [ injection H as <- | discriminate ].
    unfold on_error.
    apply (proj2 (one_keepAlive_logged _ (Herr stack))), J.
  - destruct (listening s st); [ injection H as <- | discriminate ].
    apply Hlog, J.
  - destruct (find_timer h (timers (node st))) as [t|]; [ | discriminate ].
    destruct (due t <=? now (node st)); [ injection H as <- | discriminate ].
    rewrite exec_then.
    pose proof (one_keepAlive_cancel st (Some h) J) as J0.
    destruct (callback t); simpl fire.
    + apply Hlog, J0.
    + unfold retry_expired, exec, bind at 1, self. simpl fst.
      apply maintains_bind;
        [ | intro; apply (preserves_maintains _ kobs_connect) | exact J0 ].
      intros st1 J1. apply (one_keepAlive_cancel st1 _ J1).
  - destruct (nth_error (inflight (node st)) i) as [p|]; [ | discriminate ].
    injection H as <-. rewrite exec_then.
    apply one_keepAlive_complete. exact J.
Qed.

(** The half of C9 the code keeps, at every moment: in any state the
    process can reach at most one keep-alive timer is pending. *)
Lemma keepAlive_timer_unique s cached es : forall st,
  run es (boot s cached) = Some st ->
  (List.length (pending KeepAliveExpired st) <= 1)%nat.
Proof.
  assert (G : forall es st0 st,
             one_keepAlive st0 -> run es st0 = Some st -> one_keepAlive st).
  { clear es. induction es as [|e es IH]; simpl; intros st0 st J H.
    - injection H as <-. exact J.
    - destruct (step e st0) as [st1|] eqn:E; [ | discriminate ].
      eapply IH; [ | exact H ]. eapply step_one_keepAlive; eassumption. }
  intros st H. specialize (G es (boot s cached) st I H).
  unfold one_keepAlive in G.
  destruct (pending KeepAliveExpired st) as [|t [|t' l]]; simpl;
    [ lia | lia | contradiction ].
Qed.

(** The half of C9 the code keeps: [resetKeepAlive] cancels the timer it
    armed before and only then arms the next one. *)
Lemma resetKeepAlive_cancels_first st :
  trace (node (exec resetKeepAlive st)) =
    SetTimeout (fresh (node st)) KeepAliveExpired
               (keepAliveTimeout (settings (this st)))
    :: ClearTimeout (keepAlive (this st)) :: trace (node st).
Proof. apply resetKeepAlive_fields. Qed.

(** [reconnect] cancels the keep-alive timer, never the retry timer. *)
Lemma reconnect_never_cancels_retry st h :
  In (ClearTimeout h) (trace (node (exec reconnect st))) ->
  h = keepAlive (this st) \/ In (ClearTimeout h) (trace (node st)).
Proof.
  destruct (reconnect_fields st) as (_ & _ & _ & _ & Ht & _). rewrite Ht.
  destruct (wsClient (this st)); simpl;
    intros [H | H]; try discriminate H;
    repeat (destruct H as [H | H]; try discriminate H);
    try (injection H as <-); auto.
Qed.

(** C9, on the run where it breaks.  [connect()], the session fails,
    [connect()] again, that session fails too: the second [reconnect] arms a
    retry timer while the first one is still pending and cancels nothing, so
    two retry timers are pending at once. *)
Theorem two_retry_timers_pending :
  exists st,
    run connect_twice (boot sample_settings []) = Some st /\
    map handle (pending Retry st) = [1%nat; 3%nat] /\
    retry (this st) = Some 3%nat /\
    filter (fun e => match e with
                     | ClearTimeout (Some _) => true
                     | _ => false
                     end)
           (trace (node st)) = [].
Proof.
  eexists. split; [ vm_compute; reflexivity | ].
  repeat split.
Qed.

(** ** The claims on concrete runs *)

Lemma updateHead_noop_and_cursor_monotone_witness :
  let st := reached caught_up sample_settings [] in
  let es' := [Ws_message 0 "!"; Io_done 0 (ok sample_batch);
              Io_done 0 (Failed "ECONNRESET")] in
  let st' := reached (caught_up ++ es') sample_settings [] in
  updateHead (Some (sample_message 3)) ThenReturn st = (true, st) /\
  cursor st = 4 /\ cursor st' = 9 /\ cursor st <= cursor st'.
Proof.
  intros st es' st'.
  destruct (updateHead_noop_and_cursor_monotone
              (Some (sample_message 3)) ThenReturn st
              sample_settings [] caught_up es' st st')
    as (H1 & _ & _ & H4).
  - intros x [= <-]. apply Z.leb_le. vm_compute. reflexivity.
  - vm_compute. reflexivity.
  - vm_compute. reflexivity.
  - split; [ exact H1 | ].
    split; [ vm_compute; reflexivity | ].
    split; [ vm_compute; reflexivity | exact H4 ].
Defined.

Lemma updateHead_writes_cursor_before_reply_witness :
  let st := reached caught_up sample_settings [] in
  cursor st < id (sample_message 9) /\
  cursor (exec (updateHead (Some (sample_message 9)) ThenReturn) st) = 9 /\
  cursor (exec (complete (PHead ThenReturn) (Failed "ECONNRESET"))
            (exec (updateHead (Some (sample_message 9)) ThenReturn) st)) = 9.
Proof.
  intro st.
  assert (H : cursor st < id (sample_message 9))
    by (apply Z.ltb_lt; vm_compute; reflexivity).
  pose proof (updateHead_writes_cursor_before_reply
                (sample_message 9) ThenReturn st (Failed "ECONNRESET") H) as P.
  cbv zeta in P. destruct P as (P1 & _ & _ & P4 & _).
  split; [ exact H | split; [ exact P1 | exact P4 ] ].
Defined.

(** C1 as stated fails: a failed acknowledgment does not leave the cursor
    at its prior value. *)
Lemma failed_ack_keeps_advanced_cursor :
  ~ (forall (st : State) (x : IPushoverMessage) (k : Cont) (stack : string),
       cursor (exec (complete (PHead k) (Failed stack))
                 (exec (updateHead (Some x) k) st)) = cursor st).
Proof.
  intro H.
  specialize (H (reached caught_up sample_settings []) (sample_message 9)
                ThenReturn "ECONNRESET").
  vm_compute in H. discriminate H.
Qed.




Lemma connect_noop_when_active_witness :
  let st := reached [Call_connect] sample_settings [] in
  wsClient (this st) = Some 0%nat /\ step Call_connect st = Some st.
Proof.
  intro st. split; [ reflexivity | ].
  apply (connect_noop_when_active st 0%nat). reflexivity.
Defined.

Lemma icon_of_default_witness :
  icon_of (sample_message 5) = "default.png" /\
  icon_of {| id := 6; title := "t"; message := "b"; app := "Pushover";
             aid := 1; icon := Some ""; date := 0; priority := 0;
             acked := 0; umid := 6 |} = "pushover.png".
Proof.
  split.
  - apply (proj1 (proj2 (icon_of_default (sample_message 5)))).
    + left. reflexivity.
    + discriminate.
  - apply (proj1 (icon_of_default _)).
    + right. reflexivity.
    + reflexivity.
Defined.




(** * Further properties *)

(** ** Invariants of the event loop *)

(** The segments that only start or end I/O leave [core] alone. *)

Lemma core_refreshMessages k : preserves core (refreshMessages k).
Proof. unfold refreshMessages. untouched. Qed.

Lemma core_notify m f : preserves core (notify m f).
Proof. unfold notify. untouched. Qed.

Lemma core_notify_done o : preserves core (notify_done o).
Proof. unfold notify_done. untouched. Qed.

Lemma core_fetchImage n m : preserves core (fetchImage n m).
Proof. unfold fetchImage. untouched. Qed.

Lemma core_fetchImage_stat b f n m : preserves core (fetchImage_stat b f n m).
Proof. unfold fetchImage_stat. untouched. Qed.

Lemma core_fetchImage_done o f n : preserves core (fetchImage_done o f n).
Proof. unfold fetchImage_done. untouched. Qed.

Lemma core_notify_all l : preserves core (notify_all l).
Proof.
  induction l as [|[m f] l IH]; simpl; [ untouched | ].
  apply preserves_bind; [ apply core_notify | intro; exact IH ].
Qed.

Lemma core_forEach ms : forall last ready,
  preserves core (forEach ms last ready).
Proof.
  induction ms as [|m ms IH]; intros; simpl; [ untouched | ].
  apply preserves_bind; [ intro; reflexivity | intro c ].
  destruct (lastMessageId c <? id m); [ | apply IH ].
  apply preserves_bind; [ apply core_fetchImage | intros [r|]; apply IH ].
Qed.

Section Invariant.
Variable P : State -> Prop.

(** [P] only looks at [core]. *)
Hypothesis P_core : forall st st', core st' = core st -> P st -> P st'.
Hypothesis P_connect : maintains P connect.
Hypothesis P_resetKeepAlive : maintains P resetKeepAlive.
Hypothesis P_reconnect : maintains P reconnect.
Hypothesis P_updateHead : forall m k, maintains P (updateHead m k).
Hypothesis P_cancel : forall st h,
  P st ->
  P {| this := this st;
       node := set_timers (cancel h (timers (node st))) (node st) |}.
Hypothesis P_elapse : forall st ms,
  0 <= ms ->
  P st ->
  P {| this := this st; node := set_now (now (node st) + ms) (node st) |}.

Lemma core_maintains {A} (m : M A) : preserves core m -> maintains P m.
Proof. intros H st. apply P_core, H. Qed.

Lemma inv_logged {A} (m : M A) :
  maintains P m ->
  (forall s, maintains P (logger_log s ;; m)) /\
  (forall s, maintains P (logger_error s ;; m)).
Proof.
  intro H. split; intro s;
    (apply maintains_bind;
       [ apply core_maintains; intro; reflexivity | intro; exact H ]).
Qed.

Lemma inv_resume k : maintains P (resume k).
Proof.
  destruct k; simpl; [ | intros st H; exact H ].
  apply maintains_bind; [ apply core_maintains; intro; reflexivity | intro ].
  apply maintains_bind; [ apply P_resetKeepAlive | intro ].
  apply core_maintains. untouched.
Qed.

Lemma inv_handleMessages ms k : maintains P (handleMessages ms k).
Proof.
  unfold handleMessages.
  apply maintains_bind; [ apply core_maintains, core_forEach | intro r ].
  apply maintains_bind; [ apply P_updateHead | intro b ].
  apply maintains_bind; [ apply core_maintains, core_notify_all | intro ].
  destruct b; [ apply inv_resume | intros st H; exact H ].
Qed.

Lemma inv_complete p o : maintains P (complete p o).
Proof.
  destruct p as [k | f n m | f n m | | k]; simpl.
  - unfold refreshMessages_done.
    destruct o as [stack | code data [stack | ms]];
      try destruct (code =? 200);
      try apply inv_handleMessages;
      apply (proj2 (inv_logged _ (proj2 (inv_logged _ (inv_resume k)) _))).
  - apply core_maintains.
    apply preserves_bind; [ intro; reflexivity | intro b ].
    apply preserves_bind; [ apply core_fetchImage_stat | intros [r|] ];
      [ apply core_notify | intro; reflexivity ].
  - apply core_maintains.
    apply preserves_bind; [ apply core_fetchImage_done | intro ].
    apply core_notify.
  - apply core_maintains, core_notify_done.
  - unfold updateHead_done.
    apply maintains_bind; [ | intro; apply inv_resume ].
    apply core_maintains.
    destruct o as [stack | code data payload]; [ | destruct (code =? 200) ];
      untouched.
Qed.

Lemma inv_step e st st' : step e st = Some st' -> P st -> P st'.
Proof.
  intros H J.
  pose proof (proj1 (inv_logged _ P_reconnect)) as Hlog.
  pose proof (proj2 (inv_logged _ P_reconnect)) as Herr.
  destruct e; simpl in H.
  - injection H as <-. apply P_connect, J.
  - destruct (Z.leb_spec 0 ms); [ injection H as <- | discriminate ].
    apply P_elapse; assumption.
  - destruct (listening s st); [ injection H as <- | discriminate ].
    apply (core_maintains _ (core_refreshMessages ThenLogin)), J.
  - destruct (listening s st); [ injection H as <- | discriminate ].
    unfold on_message.
    destruct (String.eqb data "!").
    + apply (proj1 (inv_logged _
                      (core_maintains _ (core_refreshMessages ThenReturn)))), J.
    + destruct (String.eqb data "#");
        [ apply P_resetKeepAlive, J | apply Hlog, J ].
  - destruct (listening s st); [ injection H as <- | discriminate ].
    unfold on_error.
    apply (proj2 (inv_logged _ (Herr stack))), J.
  - destruct (listening s st); [ injection H as <- | discriminate ].
    apply Hlog, J.
  - destruct (find_timer h (timers (node st))) as [t|]; [ | discriminate ].
    destruct (due t <=? now (node st)); [ injection H as <- | discriminate ].
    rewrite exec_then.
    pose proof (P_cancel st (Some h) J) as J0.
    destruct (callback t); simpl fire.
    + apply Hlog, J0.
    + unfold retry_expired, exec, bind at 1, self. simpl fst.
      apply maintains_bind; [ | intro; apply P_connect | exact J0 ].
      intros st1 J1. generalize (P_cancel st1 (retry (this
        {| this := this st;
           node := set_timers (cancel (Some h) (timers (node st))) (node st) |}))
        J1).
      apply P_core. reflexivity.
  - destruct (nth_error (inflight (node st)) i) as [p|]; [ | discriminate ].
    injection H as <-. rewrite exec_then.
    apply inv_complete. revert J. apply P_core. reflexivity.
Qed.

Lemma inv_run es : forall st st', run es st = Some st' -> P st -> P st'.
Proof.
  induction es as [|e es IH]; simpl; intros st st' H J.
  - injection H as <-. exact J.
  - destruct (step e st) as [st1|] eqn:E; [ | discriminate ].
    eapply IH; [ exact H | ]. eapply inv_step; eassumption.
Qed.
End Invariant.

(** *** The settings never change *)

Lemma preserves_connect_settings :
  preserves (fun st => settings (this st)) connect.
Proof. unfold connect. untouched. Qed.

Lemma preserves_reconnect_settings :
  preserves (fun st => settings (this st)) reconnect.
Proof. unfold reconnect. untouched. Qed.

Lemma preserves_updateHead_settings m k :
  preserves (fun st => settings (this st)) (updateHead m k).
Proof. unfold updateHead. untouched. Qed.

Lemma core_settings st st' :
  core st' = core st -> settings (this st') = settings (this st).
Proof. unfold core, shell. intro E. congruence. Qed.

Lemma settings_run s cached es st :
  run es (boot s cached) = Some st ->
  settings (this st) = settings (constructor s).
Proof.
  intro H.
  refine (inv_run (fun st => settings (this st) = settings (constructor s))
            _ _ _ _ _ _ _ es _ _ H eq_refl).
  - intros st1 st2 E J. rewrite (core_settings _ _ E). exact J.
  - intros st1 J. rewrite <- J. apply preserves_connect_settings.
  - intros st1 J. rewrite <- J. reflexivity.
  - intros st1 J. rewrite <- J. apply preserves_reconnect_settings.
  - intros m k st1 J. rewrite <- J. apply preserves_updateHead_settings.
  - intros st1 h J. exact J.
  - intros st1 ms _ J. exact J.
Qed.

Lemma core_fields st st' :
  core st' = core st ->
  shell st' = shell st /\
  acknowledged (trace (node st')) = acknowledged (trace (node st)) /\
  cursor st' = cursor st /\
  created (trace (node st')) = created (trace (node st)) /\
  terminated (trace (node st')) = terminated (trace (node st)).
Proof.
  intro E. repeat split.
  - exact (f_equal (fun x => fst (fst (fst (fst x)))) E).
  - exact (f_equal (fun x => snd (fst (fst (fst x)))) E).
  - exact (f_equal (fun x => snd (fst (fst x))) E).
  - exact (f_equal (fun x => snd (fst x)) E).
  - exact (f_equal snd E).
Qed.

Lemma shell_fields st st' :
  shell st' = shell st ->
  settings (this st') = settings (this st) /\
  wsClient (this st') = wsClient (this st) /\
  lastConnection (this st') = lastConnection (this st) /\
  keepAlive (this st') = keepAlive (this st) /\
  retry (this st') = retry (this st) /\
  now (node st') = now (node st) /\
  listeners (node st') = listeners (node st) /\
  timers (node st') = timers (node st) /\
  fresh (node st') = fresh (node st).
Proof.
  unfold shell. intro E. injection E. intros. repeat split; assumption.
Qed.

Lemma shell_updateHead m k : preserves shell (updateHead m k).
Proof. unfold updateHead. untouched. Qed.

Lemma Forall_cancel {P : Timer -> Prop} h l :
  Forall P l -> Forall P (cancel h l).
Proof.
  destruct h as [h|]; [ | exact (fun H => H) ]. unfold cancel.
  intro H. rewrite Forall_forall in *. intros t Ht.
  apply filter_In in Ht. apply H, Ht.
Qed.

(** *** Timers carry numbers *)

Lemma paced_shell T st st' : shell st' = shell st -> paced T st -> paced T st'.
Proof.
  intros E (HT & (L & HL & Hle) & HF).
  destruct (shell_fields _ _ E) as (E1 & _ & E3 & _ & _ & E6 & _ & E8 & _).
  unfold paced. rewrite E1, E3, E6, E8.
  split; [ exact HT | split; [ exists L; split; assumption | exact HF ] ].
Qed.

Lemma paced_connect T : maintains (paced T) connect.
Proof.
  intros st (HT & (L & HL & Hle) & HF).
  unfold paced, connect, bind, self. simpl.
  destruct (wsClient (this st)); simpl.
  - split; [ exact HT | split; [ exists L; split; assumption | exact HF ] ].
  - split; [ exact HT | split; [ | exact HF ] ].
    exists (now (node st)). split; [ reflexivity | lia ].
Qed.

Lemma paced_resetKeepAlive T : maintains (paced T) resetKeepAlive.
Proof.
  intros st (HT & (L & HL & Hle) & HF).
  unfold paced, resetKeepAlive, bind, self. simpl.
  split; [ exact HT | split; [ exists L; split; assumption | ] ].
  apply Forall_app. split; [ apply Forall_cancel, HF | ].
  constructor; [ | constructor ]. exact HT.
Qed.

Lemma paced_reconnect T : maintains (paced T) reconnect.
Proof.
  intros st (HT & (L & HL & Hle) & HF).
  unfold paced, reconnect, bind, self. simpl.
  destruct (wsClient (this st)); simpl;
    (split; [ exact HT | split; [ exists L; split; assumption | ] ];
     apply Forall_app; split; [ apply Forall_cancel, HF | ];
     constructor; [ | constructor ];
     unfold timer_ok; simpl; rewrite HT, HL; simpl;
     eexists; split; [ reflexivity | lia ]).
Qed.

Lemma paced_step T e st st' : step e st = Some st' -> paced T st -> paced T st'.
Proof.
  apply inv_step.
  - intros st1 st2 E. apply paced_shell. apply (core_fields _ _ E).
  - apply paced_connect.
  - apply paced_resetKeepAlive.
  - apply paced_reconnect.
  - intros m k st1. apply paced_shell. apply shell_updateHead.
  - intros st1 h (HT & HL & HF).
    split; [ exact HT | split; [ exact HL | apply Forall_cancel, HF ] ].
  - intros st1 ms Hms (HT & (L & HL & Hle) & HF).
    split; [ exact HT | split; [ | exact HF ] ].
    exists L. split; [ exact HL | simpl; lia ].
Qed.

Lemma pristine_step T e st st' :
  step e st = Some st' ->
  pristine st /\ keepAliveTimeout (settings (this st)) = Some T ->
  (pristine st' /\ keepAliveTimeout (settings (this st')) = Some T) \/
  paced T st'.
Proof.
  intros H ((Hw & Hc & Hl & Ht & Hi) & HT).
  destruct e; simpl in H; unfold listening in H; rewrite ?Hl, ?Ht, ?Hi in H;
    simpl in H; try discriminate H.
  - injection H as <-. right.
    unfold paced, exec, connect, bind, self. simpl. rewrite Hw. simpl.
    split; [ exact HT | split ].
    + exists (now (node st)). split; [ reflexivity | lia ].
    + rewrite Ht. constructor.
  - destruct (0 <=? ms); [ injection H as <- | discriminate ].
    left. repeat split; assumption.
  - destruct i; discriminate H.
Qed.

Lemma paced_run s cached es : forall st,
  run es (boot s cached) = Some st ->
  pristine st \/
  paced (match keepAliveTimeout s with Some v => v | None => 60000 end) st.
Proof.
  set (T := match keepAliveTimeout s with Some v => v | None => 60000 end).
  assert (G : forall es st0 st,
             (pristine st0 /\ keepAliveTimeout (settings (this st0)) = Some T)
             \/ paced T st0 ->
             run es st0 = Some st ->
             pristine st \/ paced T st).
  { clear es. induction es as [|e es IH]; simpl; intros st0 st J H.
    - injection H as <-. destruct J as [[J _] | J]; [ left | right ]; exact J.
    - destruct (step e st0) as [st1|] eqn:E; [ | discriminate ].
      apply (IH st1 st); [ | exact H ].
      destruct J as [J | J];
        [ eapply pristine_step | right; eapply paced_step ]; eassumption. }
  intros st H. apply (G es (boot s cached) st); [ | exact H ].
  left. split; [ repeat split | ].
  unfold T. simpl. destruct (keepAliveTimeout s); reflexivity.
Qed.

(** *** Timer handles are distinct *)

Lemma NoDup_handles_cancel h l :
  NoDup (map handle l) -> NoDup (map handle (cancel h l)).
Proof.
  destruct h as [h|]; [ | exact (fun H => H) ]. unfold cancel.
  induction l as [|t l IH]; simpl; intro H; [ exact H | ].
  inversion H as [|x xs Hx Hxs]; subst.
  destruct (negb (Nat.eqb (handle t) h)); simpl; [ | apply IH, Hxs ].
  constructor; [ | apply IH, Hxs ].
  intro Hin. apply Hx. apply in_map_iff in Hin as (t' & E & Ht').
  apply filter_In in Ht'. apply in_map_iff. exists t'. split; [ exact E | apply Ht' ].
Qed.

Lemma handles_fresh_shell st st' :
  shell st' = shell st -> handles_fresh st -> handles_fresh st'.
Proof.
  intros E H.
  destruct (shell_fields _ _ E) as (_ & _ & _ & _ & _ & _ & _ & E8 & E9).
  unfold handles_fresh. rewrite E8, E9. exact H.
Qed.

Lemma handles_fresh_arm st cb d h0 :
  handles_fresh st ->
  NoDup (map handle
           (cancel h0 (timers (node st)) ++
            [{| handle := fresh (node st); callback := cb; delay := d;
                armedAt := now (node st) |}])) /\
  Forall (fun t => (handle t < S (fresh (node st)))%nat)
         (cancel h0 (timers (node st)) ++
          [{| handle := fresh (node st); callback := cb; delay := d;
              armedAt := now (node st) |}]).
Proof.
  intros [Hn Hf]. split.
  - rewrite map_app. simpl. apply NoDup_app.
    + apply NoDup_handles_cancel, Hn.
    + constructor; [ intros [] | constructor ].
    + intros a Ha [<- | []].
      apply in_map_iff in Ha as (t & E & Ht).
      pose proof (Forall_cancel h0 _ Hf) as Hf'.
      rewrite Forall_forall in Hf'. specialize (Hf' t Ht). lia.
  - apply Forall_app. split.
    + eapply Forall_impl; [ | apply Forall_cancel, Hf ].
      intros t Ht. simpl in Ht. lia.
    + constructor; [ simpl; lia | constructor ].
Qed.

Lemma handles_fresh_connect : maintains handles_fresh connect.
Proof.
  intros st [Hn Hf]. unfold handles_fresh, connect, bind, self. simpl.
  destruct (wsClient (this st)); simpl; split; try assumption.
  eapply Forall_impl; [ | exact Hf ]. intros t Ht. simpl in Ht. lia.
Qed.

Lemma handles_fresh_resetKeepAlive : maintains handles_fresh resetKeepAlive.
Proof.
  intros st H. unfold handles_fresh, resetKeepAlive, bind, self. simpl.
  apply handles_fresh_arm, H.
Qed.

Lemma handles_fresh_reconnect : maintains handles_fresh reconnect.
Proof.
  intros st H. unfold handles_fresh, reconnect, bind, self. simpl.
  destruct (wsClient (this st)); simpl; apply handles_fresh_arm, H.
Qed.

Lemma handles_fresh_run s cached es st :
  run es (boot s cached) = Some st -> handles_fresh st.
Proof.
  intro H. refine (inv_run handles_fresh _ _ _ _ _ _ _ es _ _ H _).
  - intros st1 st2 E. apply handles_fresh_shell. apply (core_fields _ _ E).
  - apply handles_fresh_connect.
  - apply handles_fresh_resetKeepAlive.
  - apply handles_fresh_reconnect.
  - intros m k st1. apply handles_fresh_shell. apply shell_updateHead.
  - intros st1 h [Hn Hf].
    split; [ apply NoDup_handles_cancel, Hn | apply Forall_cancel, Hf ].
  - intros st1 ms _ J. exact J.
  - split; constructor.
Qed.

(** With distinct handles a pending timer is found by its handle. *)
Lemma find_timer_In l t :
  NoDup (map handle l) -> In t l -> find_timer (handle t) l = Some t.
Proof.
  unfold find_timer. induction l as [|a l IH]; simpl; intros Hn Hin;
    [ destruct Hin | destruct Hin as [-> | Hin] ].
  - rewrite Nat.eqb_refl. reflexivity.
  - inversion Hn as [|x xs Hx Hxs]; subst.
    destruct (Nat.eqb_spec (handle a) (handle t)) as [E|E].
    + exfalso. apply Hx. rewrite E. apply in_map, Hin.
    + apply IH; assumption.
Qed.

(** *** Acknowledgments go up *)

Lemma acked_aobs st st' :
  aobs st' = aobs st -> acked_in_order st -> acked_in_order st'.
Proof.
  unfold aobs, acked_in_order. intros [= -> ->] H. exact H.
Qed.

Lemma aobs_connect : preserves aobs connect.
Proof. unfold connect. untouched. Qed.

Lemma aobs_resetKeepAlive : preserves aobs resetKeepAlive.
Proof. intro; reflexivity. Qed.

Lemma aobs_reconnect : preserves aobs reconnect.
Proof. unfold reconnect. untouched. Qed.

Lemma acked_updateHead m k : maintains acked_in_order (updateHead m k).
Proof.
  intros st (Hs & Hc & Hp).
  destruct m as [x|]; [ | rewrite updateHead_skip by discriminate;
                           repeat split; assumption ].
  destruct (Z.lt_ge_cases (cursor st) (id x)) as [H|H].
  - rewrite updateHead_write by exact H.
    unfold acked_in_order, cursor. simpl.
    split; [ | split; [ reflexivity | ] ].
    + constructor; [ exact Hs | ].
      destruct (acknowledged (trace (node st))) as [|a l]; constructor.
      simpl in Hc. lia.
    + constructor; [ | exact Hp ].
      destruct (acknowledged (trace (node st))) as [|a l]; simpl in Hc.
      * lia.
      * inversion Hp; subst. lia.
  - rewrite updateHead_skip by (intros ? [= <-]; exact H).
    repeat split; assumption.
Qed.

Lemma acked_run s cached es st :
  run es (boot s cached) = Some st -> acked_in_order st.
Proof.
  intro H. refine (inv_run acked_in_order _ _ _ _ _ _ _ es _ _ H _).
  - intros st1 st2 E. apply acked_aobs.
    destruct (core_fields _ _ E) as (_ & E2 & E3 & _). unfold aobs. congruence.
  - intros st1. apply acked_aobs, aobs_connect.
  - intros st1. apply acked_aobs, aobs_resetKeepAlive.
  - intros st1. apply acked_aobs, aobs_reconnect.
  - apply acked_updateHead.
  - intros st1 h J. exact J.
  - intros st1 ms _ J. exact J.
  - repeat split; constructor.
Qed.

Lemma one_keepAlive_run es : forall st st',
  run es st = Some st' -> one_keepAlive st -> one_keepAlive st'.
Proof.
  induction es as [|e es IH]; simpl; intros st st' H J.
  - injection H as <-. exact J.
  - destruct (step e st) as [st1|] eqn:E; [ | discriminate ].
    eapply IH; [ exact H | ]. eapply step_one_keepAlive; eassumption.
Qed.

(** *** No socket is left behind *)






(** ** What holds in every state the client can reach *)



(** X2.  [resetKeepAlive] keeps one keep-alive timer at most.  In every
    reachable state at most one keep-alive timer is pending; it is the one
    whose handle [this.keepAlive] holds, and its delay is the configured
    [keepAliveTimeout], 60000 when the settings give none. *)
Theorem keepAlive_timer_is_held :
  forall (s : ISettings) (cached : list string) (es : list Event)
         (st : State),
    run es (boot s cached) = Some st ->
    (List.length (pending KeepAliveExpired st) <= 1)%nat /\
    (forall t,
       In t (timers (node st)) -> callback t = KeepAliveExpired ->
       keepAlive (this st) = Some (handle t) /\
       delay t = Some (match keepAliveTimeout s with
                       | Some v => v
                       | None => 60000
                       end)).
Proof.
  intros s cached es st H.
  pose proof (one_keepAlive_run _ _ _ H I) as Hk.
  assert (Hp : forall t, In t (timers (node st)) ->
                 callback t = KeepAliveExpired ->
                 In t (pending KeepAliveExpired st)).
  { intros t Hin Hc. rewrite pending_keepAlive_filter.
    apply filter_In. split; [ exact Hin | rewrite Hc; reflexivity ]. }
  unfold one_keepAlive in Hk. split.
  - destruct (pending KeepAliveExpired st) as [|t [|t' l]]; simpl;
      [ lia | lia | contradiction ].
  - intros t Hin Hc. split.
    + specialize (Hp t Hin Hc).
      destruct (pending KeepAliveExpired st) as [|t0 [|t' l]];
        [ destruct Hp | | contradiction ].
      destruct Hp as [<- | []]. exact Hk.
    + destruct (paced_run _ _ _ _ H) as [(_ & _ & _ & Ht & _) | (_ & _ & HF)].
      * rewrite Ht in Hin. destruct Hin.
      * rewrite Forall_forall in HF. specialize (HF t Hin).
        unfold timer_ok in HF. rewrite Hc in HF. exact HF.
Qed.

Lemma keepAlive_timer_is_held_witness :
  let st := reached (caught_up ++ [Ws_message 0 "#"; Ws_message 0 "#"])
                    sample_settings [] in
  map handle (timers (node st)) = [3%nat] /\
  (List.length (pending KeepAliveExpired st) <= 1)%nat /\
  (forall t,
     In t (timers (node st)) -> callback t = KeepAliveExpired ->
     keepAlive (this st) = Some (handle t) /\ delay t = Some 60000).
Proof.
  intro st. split; [ vm_compute; reflexivity | ].
  apply (keepAlive_timer_is_held sample_settings []
           (caught_up ++ [Ws_message 0%nat "#"; Ws_message 0%nat "#"]) st).
  vm_compute. reflexivity.
Defined.



(** X4.  The delay [reconnect] computes is always a number and never more
    than the keep-alive timeout.  [reconnect] runs only after [connect] has
    set [this.lastConnection] to a time that is not in the future, so in
    every reachable state each pending retry timer carries a delay [d] with
    [d <= keepAliveTimeout], and the runtime waits between 1 millisecond and
    the larger of 1 and the timeout before it runs [connect] again. *)
Theorem retry_wait_is_bounded :
  forall (s : ISettings) (cached : list string) (es : list Event)
         (st : State) (t : Timer),
    run es (boot s cached) = Some st ->
    In t (timers (node st)) ->
    callback t = Retry ->
    let T := match keepAliveTimeout s with
             | Some v => v
             | None => 60000
             end in
    (exists d, delay t = Some d /\ d <= T) /\
    1 <= effective_delay (delay t) <= Z.max 1 T.
Proof.
  intros s cached es st t H Hin Hc T.
  destruct (paced_run _ _ _ _ H) as [(_ & _ & _ & Ht & _) | (_ & _ & HF)].
  - rewrite Ht in Hin. destruct Hin.
  - rewrite Forall_forall in HF. specialize (HF t Hin).
    unfold timer_ok in HF. rewrite Hc in HF. fold T in HF.
    destruct HF as (d & Hd & Hle). split; [ exists d; split; assumption | ].
    rewrite Hd. unfold effective_delay, TIMEOUT_MAX.
    destruct (Z.leb_spec 1 d); destruct (Z.leb_spec d 2147483647);
      simpl; lia.
Qed.

Lemma retry_wait_is_bounded_witness :
  let st := reached [Call_connect; Elapse 300000; Ws_close 0]
                    sample_settings [] in
  let t := {| handle := 1; callback := Retry; delay := Some (-240000);
              armedAt := 300000 |} in
  timers (node st) = [t] /\
  (exists d, delay t = Some d /\ d <= 60000) /\
  1 <= effective_delay (delay t) <= Z.max 1 60000.
Proof.
  intros st t.
  assert (Hr : run [Call_connect; Elapse 300000; Ws_close 0%nat]
                   (boot sample_settings []) = Some st)
    by (vm_compute; reflexivity).
  assert (Ht : timers (node st) = [t]) by (vm_compute; reflexivity).
  split; [ exact Ht | ].
  assert (Hin : In t (timers (node st))) by (rewrite Ht; left; reflexivity).
  exact (retry_wait_is_bounded sample_settings [] _ st t Hr Hin eq_refl).
Defined.

Lemma Sorted_gt_NoDup l : Sorted Z.gt l -> NoDup l.
Proof.
  intro H. apply Sorted_StronglySorted in H; [ | intros x y z; lia ].
  induction H as [|a l Hs IH Ha]; constructor; [ | exact IH ].
  intro Hin. rewrite Forall_forall in Ha. specialize (Ha a Hin). lia.
Qed.

(** X5.  [updateHead] acknowledges ids in strictly increasing order.  In
    every reachable state the ids posted to [update_highest_message.json]
    so far, newest first, are strictly descending and positive, so no id
    is acknowledged twice; and the cursor is the id acknowledged last, 0
    when none was. *)
Theorem acknowledgments_increase :
  forall (s : ISettings) (cached : list string) (es : list Event)
         (st : State),
    run es (boot s cached) = Some st ->
    acked_in_order st /\ NoDup (acknowledged (trace (node st))).
Proof.
  intros s cached es st H.
  pose proof (acked_run _ _ _ _ H) as Ha.
  split; [ exact Ha | ]. apply Sorted_gt_NoDup, Ha.
Qed.

Lemma acknowledgments_increase_witness :
  let st := reached (caught_up ++
                     [Ws_message 0 "!"; Io_done 0 (ok sample_batch);
                      Ws_message 0 "!"; Io_done 3 (ok sample_batch)])
                    sample_settings [] in
  acknowledged (trace (node st)) = [9; 4] /\
  acked_in_order st /\ NoDup (acknowledged (trace (node st))).
Proof.
  intro st. split; [ vm_compute; reflexivity | ].
  apply (acknowledgments_increase sample_settings []
           (caught_up ++
            [Ws_message 0%nat "!"; Io_done 0 (ok sample_batch);
             Ws_message 0%nat "!"; Io_done 3 (ok sample_batch)]) st).
  vm_compute. reflexivity.
Defined.

(** ** Batches that bring nothing new *)

(** The loop of [handleMessages] on a batch at or below the cursor: no
    callback gets past its test. *)
Lemma forEach_old ms : forall last ready st,
  (forall m, In m ms -> id m <= cursor st) ->
  forEach ms last ready st = ((fold_left track ms last, ready), st).
Proof.
  induction ms as [|a ms IH]; intros last ready st H; simpl;
    [ reflexivity | ].
  unfold bind at 1, self.
  destruct (Z.ltb_spec (lastMessageId (this st)) (id a)) as [Hlt|Hge].
  - specialize (H a (or_introl eq_refl)). unfold cursor in H. lia.
  - apply IH. intros m Hm. apply H. right. exact Hm.
Qed.

Lemma handleMessages_old ms k st :
  (forall m, In m ms -> id m <= cursor st) ->
  handleMessages ms k st = resume k st.
Proof.
  intro H. unfold handleMessages, bind. rewrite forEach_old by exact H.
  simpl. fold (highest ms). rewrite updateHead_skip.
  - simpl. destruct (resume k st) as [[] st']. reflexivity.
  - intros x E. pose proof (highest_max ms) as Hm. rewrite E in Hm.
    apply H, Hm.
Qed.

(** Where a batch leaves the cursor. *)
Lemma cursor_handleMessages ms k st :
  cursor (exec (handleMessages ms k) st) =
  match highest ms with
  | Some x => Z.max (cursor st) (id x)
  | None => cursor st
  end.
Proof. exact (proj2 (delta_handleMessages ms k st)). Qed.

(** X6.  A batch with nothing above the cursor has no effect.
    [handleMessages] on messages whose ids are all at or below the cursor
    starts no [stat], no download, no forward and no acknowledgment and
    writes no log line: the state it returns is the one it was given, and
    its caller carries on at once. *)
Theorem handleMessages_ignores_old_batch :
  forall (ms : list IPushoverMessage) (k : Cont) (st : State),
    (forall m, In m ms -> id m <= cursor st) ->
    handleMessages ms k st = resume k st /\
    handleMessages ms ThenReturn st = (tt, st).
Proof.
  intros ms k st H. split; apply handleMessages_old; exact H.
Qed.

Lemma handleMessages_ignores_old_batch_witness :
  let st := reached caught_up sample_settings [] in
  let ms := [sample_message 3; sample_message 4; sample_message 1] in
  cursor st = 4 /\
  handleMessages ms ThenLogin st = resume ThenLogin st /\
  handleMessages ms ThenReturn st = (tt, st).
Proof.
  intros st ms.
  assert (Hc : cursor st = 4) by (vm_compute; reflexivity).
  split; [ exact Hc | ].
  apply (handleMessages_ignores_old_batch ms ThenLogin st).
  intros m Hm. rewrite Hc.
  destruct Hm as [<- | [<- | [<- | []]]]; simpl; lia.
Defined.

(** X7.  A batch that was handled is never forwarded again.  Once
    [handleMessages] has run on a batch, the cursor is at or above every id
    of the batch, whatever it was before and whether or not an image cache
    is configured, and it stays there whatever happens next, failed
    forwards and failed acknowledgments included.  So when the same batch
    comes back, as it does when two refreshes are answered with the same
    list, [handleMessages] does nothing; and whatever a later batch gets
    past the cursor has an id above every id of this one. *)
Theorem handled_batch_is_never_forwarded_again :
  forall (ms : list IPushoverMessage) (k : Cont) (st : State)
         (es : list Event) (st' : State),
    run es (exec (handleMessages ms k) st) = Some st' ->
    (forall m, In m ms -> id m <= cursor st') /\
    (forall k', handleMessages ms k' st' = resume k' st') /\
    (forall ms2 m m2,
       In m ms -> In m2 (above (cursor st') ms2) -> id m < id m2).
Proof.
  intros ms k st es st' Hrun.
  assert (H : forall m, In m ms -> id m <= cursor st').
  { intros m Hm. pose proof (run_cursor _ _ _ Hrun) as Hc.
    rewrite cursor_handleMessages in Hc.
    pose proof (highest_max ms) as Hx.
    destruct (highest ms) as [x|]; [ | subst ms; destruct Hm ].
    destruct Hx as [_ Hx]. specialize (Hx m Hm). lia. }
  split; [ exact H | ].
  split; [ intro k'; apply handleMessages_old; exact H | ].
  intros ms2 m m2 Hm Hm2. specialize (H m Hm).
  unfold above in Hm2. apply filter_In in Hm2 as [_ Hlt].
  apply Z.ltb_lt in Hlt. lia.
Qed.

Lemma handled_batch_is_never_forwarded_again_witness :
  let st := reached caught_up sample_settings [] in
  let st' := reached (caught_up ++
                      [Ws_message 0 "!"; Io_done 0 (ok sample_batch);
                       Io_done 1 (Failed "ECONNRESET");
                       Io_done 1 (Responded 500 "" (inl ""));
                       Io_done 0 (Failed "ETIMEDOUT")])
                     sample_settings [] in
  cursor st = 4 /\ cursor st' = 9 /\ inflight (node st') = [] /\
  handleMessages sample_batch ThenReturn st' = (tt, st').
Proof.
  intros st st'.
  split; [ vm_compute; reflexivity | ].
  split; [ vm_compute; reflexivity | ].
  split; [ vm_compute; reflexivity | ].
  set (st0 := reached (caught_up ++ [Ws_message 0%nat "!"])
                      sample_settings []).
  refine (proj1 (proj2 (handled_batch_is_never_forwarded_again sample_batch
                          ThenReturn
                          {| this := this st0;
                             node := set_inflight [] (node st0) |}
                          [Io_done 1 (Failed "ECONNRESET");
                           Io_done 1 (Responded 500 "" (inl ""));
                           Io_done 0 (Failed "ETIMEDOUT")]
                          st' _)) ThenReturn).
  vm_compute. reflexivity.
Defined.

(** ** How a session ends and how the next one starts *)

Lemma run_snoc es : forall st st' e st'',
  run es st = Some st' -> step e st' = Some st'' ->
  run (es ++ [e]) st = Some st''.
Proof.
  induction es as [|a es IH]; simpl; intros st st' e st'' H Hs.
  - injection H as ->. rewrite Hs. reflexivity.
  - destruct (step a st) as [st1|]; [ | discriminate ].
    eapply IH; eassumption.
Qed.






(** The two events of a timer, as equations. *)
Lemma step_elapse ms st :
  0 <= ms ->
  step (Elapse ms) st =
  Some {| this := this st; node := set_now (now (node st) + ms) (node st) |}.
Proof.
  intro H. simpl. destruct (Z.leb_spec 0 ms); [ reflexivity | lia ].
Qed.





Lemma effective_delay_bounds d T :
  d <= T -> 1 <= effective_delay (Some d) <= Z.max 1 T.
Proof.
  intro H. unfold effective_delay, TIMEOUT_MAX.
  destruct (Z.leb_spec 1 d); destruct (Z.leb_spec d 2147483647); simpl; lia.
Qed.



(** [resetKeepAlive] in a state with at most one keep-alive timer: the one
    it arms is the only one afterwards. *)
Lemma resetKeepAlive_only_timer st :
  one_keepAlive st ->
  pending KeepAliveExpired (exec resetKeepAlive st) =
  [{| handle := fresh (node st); callback := KeepAliveExpired;
      delay := keepAliveTimeout (settings (this st));
      armedAt := now (node st) |}].
Proof.
  intro Hk. destruct (resetKeepAlive_fields st) as (_ & _ & _ & _ & Ht & _).
  rewrite pending_keepAlive_filter, Ht, filter_app.
  rewrite (one_keepAlive_cancel_own st Hk). reflexivity.
Qed.

(** X10.  A heartbeat gives the session a full timeout.  After a ["#"]
    frame in any reachable state, no keep-alive timer can run out until
    the wait the runtime makes of [keepAliveTimeout] has passed, whatever
    timers were pending before; when it has passed, the timer armed by
    this heartbeat is due, and its running out tears the session down. *)
Theorem heartbeat_postpones_expiry :
  forall (s : ISettings) (cached : list string) (es : list Event)
         (st : State) (sock : nat) (st1 : State),
    run es (boot s cached) = Some st ->
    step (Ws_message sock "#") st = Some st1 ->
    let w := effective_delay (Some match keepAliveTimeout s with
                                   | Some v => v
                                   | None => 60000
                                   end) in
    (forall ms h st2,
       ms < w -> step (Elapse ms) st1 = Some st2 ->
       tears_down (Timer_fires h) st2 = false) /\
    (exists st2,
       step (Elapse w) st1 = Some st2 /\
       tears_down (Timer_fires (fresh (node st))) st2 = true) /\
    keepAlive (this st1) = Some (fresh (node st)) /\
    link st1 = link st.
Proof.
  intros s cached es st sock st1 Hrun Hs w.
  pose proof (one_keepAlive_run _ _ _ Hrun I) as Hk.
  pose proof (run_snoc _ _ _ _ _ Hrun Hs) as Hrun1.
  pose proof (handles_fresh_run _ _ _ _ Hrun1) as [Hnd _].
  assert (HT : keepAliveTimeout (settings (this st)) =
               Some match keepAliveTimeout s with
                    | Some v => v
                    | None => 60000
                    end).
  { rewrite (settings_run _ _ _ _ Hrun). simpl.
    destruct (keepAliveTimeout s); reflexivity. }
  assert (E1 : st1 = exec resetKeepAlive st).
  { simpl in Hs. destruct (listening sock st); [ | discriminate ].
    injection Hs as <-. reflexivity. }
  pose proof (resetKeepAlive_only_timer st Hk) as Hp.
  destruct (resetKeepAlive_fields st) as (Hw & _ & Hka & Hl & Ht & _).
  assert (Hn : now (node (exec resetKeepAlive st)) = now (node st))
    by reflexivity.
  rewrite <- E1 in Hp, Hw, Hka, Hl, Ht, Hn. clear E1 Hs.
  rewrite HT in Hp, Ht.
  remember {| handle := fresh (node st); callback := KeepAliveExpired;
              delay := Some match keepAliveTimeout s with
                            | Some v => v
                            | None => 60000
                            end;
              armedAt := now (node st) |} as t eqn:Et.
  assert (Hdue : due t = now (node st) + w) by (subst t; reflexivity).
  assert (Hh : handle t = fresh (node st)) by (subst t; reflexivity).
  assert (Hc : callback t = KeepAliveExpired) by (subst t; reflexivity).
  clear Et.
  assert (Hw1 : 1 <= w).
  { unfold w. apply (effective_delay_bounds _ _ (Z.le_refl _)). }
  split; [ | split; [ | split ] ].
  - intros ms h st2 Hms He.
    destruct (Z.le_gt_cases 0 ms) as [H0|H0].
    + rewrite step_elapse in He by exact H0. injection He as <-.
      unfold tears_down.
      change (timers (node {| this := this st1;
                              node := set_now (now (node st1) + ms)
                                        (node st1) |}))
        with (timers (node st1)).
      destruct (find_timer h (timers (node st1))) as [t0|] eqn:Ef;
        [ | reflexivity ].
      destruct (callback t0) eqn:Ec; [ | reflexivity ].
      apply find_some in Ef as [Hin _].
      assert (Hin' : In t0 (pending KeepAliveExpired st1)).
      { rewrite pending_keepAlive_filter. apply filter_In.
        split; [ exact Hin | rewrite Ec; reflexivity ]. }
      rewrite Hp in Hin'. destruct Hin' as [<- | []].
      rewrite Hdue. apply Z.leb_gt. simpl. lia.
    + simpl in He. destruct (Z.leb_spec 0 ms); [ lia | discriminate ].
  - rewrite step_elapse by lia. eexists. split; [ reflexivity | ].
    unfold tears_down.
    change (timers (node {| this := this st1;
                            node := set_now (now (node st1) + w)
                                      (node st1) |}))
      with (timers (node st1)).
    assert (Hin : In t (timers (node st1))).
    { rewrite Ht. apply in_or_app. right. left. reflexivity. }
    rewrite <- Hh, (find_timer_In _ _ Hnd Hin), Hc, Hdue.
    apply Z.leb_le. simpl. lia.
  - exact Hka.
  - unfold link. rewrite Hw, Hl. reflexivity.
Qed.

Lemma heartbeat_postpones_expiry_witness :
  let st := reached (caught_up ++ [Elapse 59999]) sample_settings [] in
  exists st1,
    step (Ws_message 0 "#") st = Some st1 /\
    (forall ms h st2,
       ms < 60000 -> step (Elapse ms) st1 = Some st2 ->
       tears_down (Timer_fires h) st2 = false) /\
    (exists st2,
       step (Elapse 60000) st1 = Some st2 /\
       tears_down (Timer_fires 2) st2 = true) /\
    link st1 = link st.
Proof.
  intro st.
  assert (Hr : run (caught_up ++ [Elapse 59999]) (boot sample_settings [])
               = Some st) by (vm_compute; reflexivity).
  destruct (step (Ws_message 0 "#") st) as [st1|] eqn:Hs;
    [ | vm_compute in Hs; discriminate Hs ].
  exists st1. split; [ reflexivity | ].
  pose proof (heartbeat_postpones_expiry sample_settings []
                (caught_up ++ [Elapse 59999]) st 0%nat st1 Hr Hs) as H.
  assert (Hf : fresh (node st) = 2%nat) by (vm_compute; reflexivity).
  rewrite Hf in H. destruct H as (H1 & H2 & _ & H4).
  split; [ exact H1 | ]. split; [ exact H2 | exact H4 ].
Defined.

(** ** What the icon host answers ends up in the cache *)

(** A request for an icon that is not in the cache, answered by the icon
    host with a status other than 200. *)
Lemma request_icon_miss_bad st dir name m code data payload :
  imageCache (settings (this st)) = Some dir -> dir <> "" ->
  existsb (String.eqb (Path_join dir name)) (files (node st)) = false ->
  code <> 200 ->
  exists st',
    request_icon name m (Responded code data payload) st = Some st' /\
    this st' = this st /\
    files (node st') = Path_join dir name :: files (node st) /\
    inflight (node st') = (inflight (node st) ++ [PNotify])%list /\
    trace (node st') =
      HttpsRequest (PostGotify (gotifyHost (settings (this st)))
                      (gotifyToken (settings (this st)))
                      (title m) (message m) (gotifyPriority (priority m)))
      :: Log (JSON_stringify m)
      :: LogError (Str ("HTTP error while caching image " ++ name ++ ": "
                        ++ string_of_Z code))
      :: FsCreateWriteStream (Path_join dir name)
      :: HttpsRequest (GetIcon (iconHost (settings (this st))) name)
      :: Log (Str ("Caching image for " ++ name))
      :: FsStat (Path_join dir name) :: trace (node st).
Proof.
  intros Hc Hd Hf Hne.
  apply Z.eqb_neq in Hne.
  unfold request_icon, fetchImage, bind, self.
  rewrite Hc, (truthy_dir dir Hd). cbn -[step nth_error].
  erewrite step_io_last by reflexivity.
  unfold exec, complete, bind, fileExists. cbn -[step nth_error].
  rewrite Hf. cbn -[step nth_error].
  rewrite nth_error_last. erewrite step_io_last by reflexivity.
  unfold exec, complete, fetchImage_done, bind.
  cbn -[Z.eqb string_of_Z String.append]. rewrite Hne.
  cbn -[Z.eqb string_of_Z String.append].
  eexists. split; [ reflexivity | ]. repeat split.
Qed.

(** X11.  An error page of the icon host is kept as the icon.  The
    response of a download is piped into the cache file before its status
    is looked at, so when the icon host answers with a status other than
    200 the file exists afterwards all the same: the message is forwarded,
    the error is logged, and every later request for that icon finds the
    file, starts no download and is forwarded as well. *)
Theorem icon_error_body_is_cached :
  forall (st : State) (dir name : string) (m1 m2 : IPushoverMessage)
         (code : Z) (data : string)
         (payload : string + list IPushoverMessage) (o2 : Outcome),
    imageCache (settings (this st)) = Some dir -> dir <> "" ->
    existsb (String.eqb (Path_join dir name)) (files (node st)) = false ->
    code <> 200 ->
    exists st1 st2,
      request_icon name m1 (Responded code data payload) st = Some st1 /\
      files (node st1) = Path_join dir name :: files (node st) /\
      downloads st1 = S (downloads st) /\
      In (LogError (Str ("HTTP error while caching image " ++ name ++ ": "
                         ++ string_of_Z code))) (trace (node st1)) /\
      request_icon name m2 o2 st1 = Some st2 /\
      downloads st2 = downloads st1 /\
      files (node st2) = files (node st1) /\
      sent st2 = forward_of m2 :: forward_of m1 :: sent st.
Proof.
  intros st dir name m1 m2 code data payload o2 Hc Hd Hf Hne.
  destruct (request_icon_miss_bad st dir name m1 code data payload
              Hc Hd Hf Hne) as (st1 & R1 & T1 & F1 & _ & E1).
  assert (Hf1 : existsb (String.eqb (Path_join dir name))
                        (files (node st1)) = true).
  { rewrite F1. simpl. rewrite String.eqb_refl. reflexivity. }
  assert (Hc1 : imageCache (settings (this st1)) = Some dir)
    by (rewrite T1; exact Hc).
  destruct (request_icon_hit st1 dir name m2 o2 Hc1 Hd Hf1)
    as (st2 & R2 & T2 & F2 & _ & E2).
  exists st1, st2. unfold downloads, sent.
  rewrite E2, E1, T1. simpl.
  split; [ exact R1 | ]. split; [ exact F1 | ]. split; [ reflexivity | ].
  split; [ right; right; left; reflexivity | ].
  split; [ exact R2 | ]. split; [ reflexivity | ].
  split; [ exact F2 | reflexivity ].
Qed.

Lemma icon_error_body_is_cached_witness :
  exists st1 st2,
    request_icon "app.png" (sample_message 5)
      (Responded 404 "Not Found" (inl "")) caught_up_cache = Some st1 /\
    files (node st1) =
      "/var/cache/p2g/app.png" :: files (node caught_up_cache) /\
    request_icon "app.png" (sample_message 9) (Failed "unused") st1
      = Some st2 /\
    downloads st2 = downloads st1.
Proof.
  assert (Hc : imageCache (settings (this caught_up_cache))
               = Some "/var/cache/p2g") by (vm_compute; reflexivity).
  assert (Hd : "/var/cache/p2g" <> "") by discriminate.
  assert (Hf : existsb (String.eqb (Path_join "/var/cache/p2g" "app.png"))
                       (files (node caught_up_cache)) = false)
    by (vm_compute; reflexivity).
  assert (Hne : 404 <> 200) by lia.
  destruct (icon_error_body_is_cached caught_up_cache "/var/cache/p2g"
              "app.png" (sample_message 5) (sample_message 9)
              404 "Not Found" (inl "") (Failed "unused") Hc Hd Hf Hne)
    as (st1 & st2 & R1 & F1 & _ & _ & R2 & D2 & _).
  exists st1, st2.
  split; [ exact R1 | ]. split; [ exact F1 | ].
  split; [ exact R2 | exact D2 ].
Defined.

(** ** The entry point *)

Lemma append_nonempty a b : b <> "" -> (a ++ b)%string <> "".
Proof.
  intro H. destruct a as [|c a]; simpl; [ exact H | discriminate ].
Qed.

Lemma truthy_template Xdg_cache :
  truthy (Some (template_cache Xdg_cache)) = true.
Proof.
  apply truthy_dir. unfold template_cache. apply append_nonempty.
  discriminate.
Qed.

Lemma truthy_js_or a b : truthy b = true -> truthy (js_or a b) = true.
Proof.
  intro H. unfold js_or. destruct (truthy a) eqn:E; [ exact E | exact H ].
Qed.

(** The directory is never the one under [/tmp]: the operand before it is
    a non-empty string whatever [Xdg.cache] is. *)
Lemma main_imageCache_three given env xdg :
  main_imageCache given env xdg =
  js_or (js_or given env) (Some (template_cache xdg)) /\
  truthy (main_imageCache given env xdg) = true.
Proof.
  pose proof (truthy_js_or (js_or given env) _ (truthy_template xdg)) as H.
  assert (E : main_imageCache given env xdg =
              js_or (js_or given env) (Some (template_cache xdg))).
  { unfold main_imageCache.
    set (x := js_or (js_or given env) (Some (template_cache xdg))) in *.
    unfold js_or. rewrite H. reflexivity. }
  split; [ exact E | rewrite E; exact H ].
Qed.

Lemma settings_run_from es st0 st :
  run es st0 = Some st -> settings (this st) = settings (this st0).
Proof.
  intro H.
  refine (inv_run (fun st => settings (this st) = settings (this st0))
            _ _ _ _ _ _ _ es _ _ H eq_refl).
  - intros st1 st2 E J. rewrite (core_settings _ _ E). exact J.
  - intros st1 J. rewrite <- J. apply preserves_connect_settings.
  - intros st1 J. rewrite <- J. reflexivity.
  - intros st1 J. rewrite <- J. apply preserves_reconnect_settings.
  - intros m k st1 J. rewrite <- J. apply preserves_updateHead_settings.
  - intros st1 h J. exact J.
  - intros st1 ms _ J. exact J.
Qed.

(** X12.  The program always runs with an image cache.  The entry point
    takes the cache directory from the settings file, else from
    [P2G_IMAGE_CACHE], else from the template on [Xdg.cache]; the template
    gives a non-empty string even when [Xdg.cache] is [undefined], so the
    [/tmp] operand after it is never taken and [settings.imageCache] is
    always a non-empty string.  In every state the program reaches,
    [fetchImage] therefore never returns [null] straight away: it starts a
    [stat] of the icon's file in that directory and suspends. *)
Theorem main_always_has_image_cache :
  forall (s : ISettings) (P2G_IMAGE_CACHE Xdg_cache : option string)
         (cached : list string) (es : list Event) (st : State),
    run es (main s P2G_IMAGE_CACHE Xdg_cache cached) = Some st ->
    exists dir,
      js_or (js_or (imageCache s) P2G_IMAGE_CACHE)
            (Some (template_cache Xdg_cache)) = Some dir /\
      dir <> "" /\
      imageCache (settings (this st)) = Some dir /\
      forall name m,
        fetchImage name m st =
        (Suspended,
         {| this := this st;
            node := push_effect (FsStat (Path_join dir name))
                      (set_inflight
                         (inflight (node st)
                          ++ [PStat (Path_join dir name) name m])
                         (node st)) |}).
Proof.
  intros s env xdg cached es st H.
  destruct (main_imageCache_three (imageCache s) env xdg) as [E Ht].
  destruct (truthy_inv _ Ht) as (dir & Hdir & Hne).
  assert (Hc : imageCache (settings (this st)) = Some dir).
  { rewrite (settings_run_from _ _ _ H). unfold main.
    rewrite exec_then. unfold exec at 1.
    rewrite preserves_connect_settings. simpl. exact Hdir. }
  exists dir. split; [ rewrite <- E; exact Hdir | ].
  split; [ exact Hne | ]. split; [ exact Hc | ].
  intros name m. apply fetchImage_suspends; assumption.
Qed.

Lemma main_always_has_image_cache_witness :
  let st := or_else
              (run [Ws_open 0; Io_done 0 (ok [sample_message 4])]
                   (main sample_settings None None []))
              (boot sample_settings []) in
  imageCache (settings (this st)) = Some "undefined/pushover2gotify" /\
  inflight (node st) =
    [PStat "undefined/pushover2gotify/default.png" "default.png"
           (sample_message 4);
     PHead ThenLogin] /\
  fst (fetchImage "pushover.png" (sample_message 9) st) = Suspended.
Proof.
  intro st.
  assert (Hr : run [Ws_open 0; Io_done 0 (ok [sample_message 4])]
                   (main sample_settings None None []) = Some st)
    by (vm_compute; reflexivity).
  destruct (main_always_has_image_cache sample_settings None None [] _ st Hr)
    as (dir & Hd & _ & Hc & Hf).
  assert (E : dir = "undefined/pushover2gotify").
  { vm_compute in Hd. injection Hd as <-. reflexivity. }
  subst dir.
  split; [ exact Hc | ]. split; [ vm_compute; reflexivity | ].
  rewrite Hf. reflexivity.
Defined.

(** ** Logging in *)

(** The rest of the ['open'] handler while the client holds a socket. *)
Lemma resume_login_fields st sock :
  wsClient (this st) = Some sock ->
  let st' := exec (resume ThenLogin) st in
  trace (node st') =
    WsSend sock ("login:" ++ deviceId (settings (this st)) ++ ":"
                 ++ secret (settings (this st)) ++ newline)
    :: SetTimeout (fresh (node st)) KeepAliveExpired
         (keepAliveTimeout (settings (this st)))
    :: ClearTimeout (keepAlive (this st))
    :: Log (Str "WebSocket connected, waiting for messages")
    :: trace (node st) /\
  keepAlive (this st') = Some (fresh (node st)) /\
  cursor st' = cursor st /\
  inflight (node st') = inflight (node st) /\
  link st' = link st.
Proof.
  intro Hw. unfold exec, resume, resetKeepAlive, bind, self. simpl.
  rewrite Hw. simpl. repeat split.
Qed.

(** X13.  The client logs in even when its first refresh fails.  After
    ['open'] on the socket held, a refresh that ends in a request error, in
    a status other than 200 or in a body that does not parse is logged as
    two error lines, and the ['open'] handler carries on all the same: it
    arms the keep-alive timer and sends the login frame on that socket.
    Nothing is forwarded or acknowledged and the cursor stays. *)
Theorem login_follows_failed_refresh :
  forall (s : ISettings) (cached : list string) (es : list Event)
         (st : State) (sock : nat) (o : Outcome),
    run es (boot s cached) = Some st ->
    listening sock st = true ->
    refresh_failed o = true ->
    exists st1 st2 a b,
      step (Ws_open sock) st = Some st1 /\
      step (Io_done (List.length (inflight (node st))) o) st1 = Some st2 /\
      trace (node st2) =
        WsSend sock ("login:" ++ deviceId (settings (this st)) ++ ":"
                     ++ secret (settings (this st)) ++ newline)
        :: SetTimeout (fresh (node st)) KeepAliveExpired
             (keepAliveTimeout (settings (this st)))
        :: ClearTimeout (keepAlive (this st))
        :: Log (Str "WebSocket connected, waiting for messages")
        :: LogError (Str b) :: LogError (Str a)
        :: HttpsRequest
             (GetMessages (apiHost (settings (this st)))
                (apiPath (settings (this st))) (secret (settings (this st)))
                (deviceId (settings (this st))))
        :: Log (Str "Refreshing messages") :: trace (node st) /\
      keepAlive (this st2) = Some (fresh (node st)) /\
      cursor st2 = cursor st /\
      inflight (node st2) = inflight (node st) /\
      link st2 = link st.
Proof.
  intros s cached es st sock o Hrun Hl Hfail.
  pose proof (run_attached _ _ _ Hrun (attached_boot s cached)) as Ha.
  destruct (attached_listening _ _ Ha Hl) as [Hw _].
  assert (E1 : step (Ws_open sock) st = Some (exec on_open st))
    by (simpl; rewrite Hl; reflexivity).
  assert (E2 : step (Io_done (List.length (inflight (node st))) o)
                    (exec on_open st) =
               Some (exec (complete (PRefresh ThenLogin) o)
                       {| this := this (exec on_open st);
                          node := set_inflight (inflight (node st))
                                    (node (exec on_open st)) |}))
    by (apply step_io_last; reflexivity).
  assert (G : forall a b,
            exec (logger_error a ;; logger_error b ;; resume ThenLogin)
                 {| this := this (exec on_open st);
                    node := set_inflight (inflight (node st))
                              (node (exec on_open st)) |} =
            exec (complete (PRefresh ThenLogin) o)
                 {| this := this (exec on_open st);
                    node := set_inflight (inflight (node st))
                              (node (exec on_open st)) |} ->
            exists st1 st2 a b,
              step (Ws_open sock) st = Some st1 /\
              step (Io_done (List.length (inflight (node st))) o) st1
                = Some st2 /\
              trace (node st2) =
                WsSend sock ("login:" ++ deviceId (settings (this st)) ++ ":"
                             ++ secret (settings (this st)) ++ newline)
                :: SetTimeout (fresh (node st)) KeepAliveExpired
                     (keepAliveTimeout (settings (this st)))
                :: ClearTimeout (keepAlive (this st))
                :: Log (Str "WebSocket connected, waiting for messages")
                :: LogError (Str b) :: LogError (Str a)
                :: HttpsRequest
                     (GetMessages (apiHost (settings (this st)))
                        (apiPath (settings (this st)))
                        (secret (settings (this st)))
                        (deviceId (settings (this st))))
                :: Log (Str "Refreshing messages") :: trace (node st) /\
              keepAlive (this st2) = Some (fresh (node st)) /\
              cursor st2 = cursor st /\
              inflight (node st2) = inflight (node st) /\
              link st2 = link st).
  { intros a b E. rewrite <- E in E2. clear E.
    eexists. eexists. exists a, b.
    split; [ exact E1 | ]. split; [ exact E2 | ].
    rewrite !exec_then.
    match goal with
    | |- context [exec (resume ThenLogin) ?x] =>
        destruct (resume_login_fields x sock Hw) as (R1 & R2 & R3 & R4 & R5)
    end.
    split; [ exact R1 | ]. split; [ exact R2 | ].
    split; [ exact R3 | ]. split; [ exact R4 | exact R5 ]. }
  destruct o as [stack | code data [stack | ms]]; simpl in Hfail.
  - apply (G "Error while refreshing messages" stack). reflexivity.
  - destruct (code =? 200) eqn:Ec.
    + apply (G "Failed to parse message payload" stack).
      simpl. rewrite Ec. reflexivity.
    + apply (G "Error while refreshing messages" data).
      simpl. rewrite Ec. reflexivity.
  - destruct (code =? 200) eqn:Ec; [ discriminate | ].
    apply (G "Error while refreshing messages" data).
    simpl. rewrite Ec. reflexivity.
Qed.

Lemma login_follows_failed_refresh_witness :
  let st := reached [Call_connect] sample_settings [] in
  exists st1 st2,
    step (Ws_open 0) st = Some st1 /\
    step (Io_done 0 (Responded 500 "oops" (inr []))) st1 = Some st2 /\
    hd_error (trace (node st2)) =
      Some (WsSend 0 ("login:device:secret" ++ newline)) /\
    keepAlive (this st2) = Some 1%nat /\
    cursor st2 = 0.
Proof.
  intro st.
  assert (Hr : run [Call_connect] (boot sample_settings []) = Some st)
    by (vm_compute; reflexivity).
  assert (Hl : listening 0 st = true) by (vm_compute; reflexivity).
  destruct (login_follows_failed_refresh sample_settings [] [Call_connect]
              st 0%nat (Responded 500 "oops" (inr [])) Hr Hl eq_refl)
    as (st1 & st2 & a & b & E1 & E2 & Ht & Hk & Hc & _).
  exists st1, st2.
  split; [ exact E1 | ]. split; [ exact E2 | ].
  split; [ rewrite Ht; reflexivity | ].
  split; [ exact Hk | exact Hc ].
Defined.

(** ** No message is dispatched twice *)

Lemma dobs_inv st d :
  dobs st = d ->
  notified (trace (node st)) = handed d /\
  awaiting (inflight (node st)) = suspended d /\
  cursor st = head d /\
  acknowledged (trace (node st)) = acks d /\
  sent st = posted d.
Proof. intros <-. repeat split. Qed.

Lemma dobs_fields st st' :
  dobs st' = dobs st ->
  notified (trace (node st')) = notified (trace (node st)) /\
  awaiting (inflight (node st')) = awaiting (inflight (node st)) /\
  cursor st' = cursor st /\
  acknowledged (trace (node st')) = acknowledged (trace (node st)) /\
  sent st' = sent st.
Proof. intro E. apply (dobs_inv st' (dobs st) E). Qed.

Lemma dispatched_dobs st st' : dobs st' = dobs st -> dispatched st' = dispatched st.
Proof.
  intro E. destruct (dobs_fields _ _ E) as (E1 & E2 & _).
  unfold dispatched. rewrite E1, E2. reflexivity.
Qed.

Lemma below_dobs st st' : dobs st' = dobs st -> below_cursor st -> below_cursor st'.
Proof.
  intros E H m. rewrite (dispatched_dobs _ _ E).
  destruct (dobs_fields _ _ E) as (_ & _ & Ec & _). rewrite Ec. apply H.
Qed.


Lemma faithful_dobs st st' : dobs st' = dobs st -> faithful st -> faithful st'.
Proof.
  intros E H. destruct (dobs_fields _ _ E) as (E1 & _ & _ & _ & E5).
  unfold faithful. rewrite E1, E5. exact H.
Qed.

Lemma awaiting_snoc l p : awaiting [p] = [] -> awaiting (l ++ [p]) = awaiting l.
Proof. intro H. rewrite awaiting_app, H, app_nil_r. reflexivity. Qed.

Lemma dobs_connect : preserves dobs connect.
Proof. unfold connect. untouched. Qed.

Lemma dobs_reconnect : preserves dobs reconnect.
Proof. unfold reconnect. untouched. Qed.

Lemma dobs_resume k : preserves dobs (resume k).
Proof. unfold resume. untouched. Qed.

Lemma dobs_refreshMessages k : preserves dobs (refreshMessages k).
Proof.
  intro st. unfold dobs, sent, refreshMessages, Https_request, bind, self.
  simpl. rewrite (awaiting_snoc _ (PRefresh k) eq_refl). reflexivity.
Qed.

Lemma dobs_notify_done o : preserves dobs (notify_done o).
Proof. unfold notify_done. untouched. Qed.

Lemma dobs_updateHead_done o k : preserves dobs (updateHead_done o k).
Proof.
  unfold updateHead_done.
  apply preserves_bind; [ | intro; apply dobs_resume ].
  destruct o as [stack | code data payload]; [ | destruct (code =? 200) ];
    untouched.
Qed.

Lemma dobs_fetchImage_done o f n : preserves dobs (fetchImage_done o f n).
Proof. unfold fetchImage_done. untouched. Qed.

(** [notify] hands one more message over and posts its forward. *)
Lemma dobs_notify m f st :
  dobs (exec (notify m f) st) =
  {| handed := m :: notified (trace (node st));
     suspended := awaiting (inflight (node st));
     head := cursor st;
     acks := acknowledged (trace (node st));
     posted := forward_of m :: sent st |}.
Proof.
  unfold dobs, sent, exec, notify, Https_request, bind, self. simpl.
  rewrite (awaiting_snoc _ PNotify eq_refl). reflexivity.
Qed.

Lemma dobs_notify_all ready : forall st,
  dobs (exec (notify_all ready) st) =
  {| handed := (rev (map fst ready) ++ notified (trace (node st)))%list;
     suspended := awaiting (inflight (node st));
     head := cursor st;
     acks := acknowledged (trace (node st));
     posted := (rev (map (fun p => forward_of (fst p)) ready)
                ++ sent st)%list |}.
Proof.
  induction ready as [|[m f] ready IH]; intro st; [ reflexivity | ].
  simpl notify_all. rewrite exec_then, IH.
  destruct (dobs_inv _ _ (dobs_notify m f st)) as (E1 & E2 & E3 & E4 & E5).
  rewrite E1, E2, E3, E4, E5. simpl. repeat rewrite <- app_assoc. reflexivity.
Qed.

Lemma nobs_fetchImage n m :
  preserves (fun st => notified (trace (node st))) (fetchImage n m).
Proof. unfold fetchImage. untouched. Qed.

Lemma nobs_forEach ms : forall last ready,
  preserves (fun st => notified (trace (node st))) (forEach ms last ready).
Proof.
  induction ms as [|m ms IH]; intros; simpl; [ untouched | ].
  apply preserves_bind; [ intro; reflexivity | intro c ].
  destruct (lastMessageId c <? id m); [ | apply IH ].
  apply preserves_bind; [ apply nobs_fetchImage | intros [r|]; apply IH ].
Qed.

Lemma dispatched_updateHead m k st :
  dispatched (snd (updateHead m k st)) = dispatched st.
Proof.
  destruct m as [x|]; [ | rewrite updateHead_skip by discriminate; reflexivity ].
  destruct (Z.lt_ge_cases (cursor st) (id x)) as [H|H].
  - rewrite updateHead_write by exact H. unfold dispatched. simpl.
    rewrite (awaiting_snoc _ (PHead k) eq_refl). reflexivity.
  - rewrite updateHead_skip by (intros ? [= <-]; exact H). reflexivity.
Qed.

(** What a batch dispatches: the messages above the cursor it found. *)
Lemma dispatched_handleMessages ms k st x :
  In x (dispatched (exec (handleMessages ms k) st)) <->
  In x (dispatched st) \/ In x (above (cursor st) ms).
Proof.
  unfold handleMessages. rewrite exec_bind. cbv beta.
  set (r := forEach ms None [] st).
  rewrite exec_bind. cbv beta.
  set (u := updateHead (fst (fst r)) k (snd r)).
  rewrite exec_then.
  assert (E3 : dispatched
                 (exec (if fst u then resume k else ret tt)
                       (exec (notify_all (snd (fst r))) (snd u))) =
               dispatched (exec (notify_all (snd (fst r))) (snd u))).
  { destruct (fst u); [ apply dispatched_dobs, dobs_resume | reflexivity ]. }
  rewrite E3. clear E3.
  destruct (dobs_inv _ _ (dobs_notify_all (snd (fst r)) (snd u)))
    as (N2 & A2 & _).
  cbn [handed suspended] in N2, A2.
  pose proof (dispatched_updateHead (fst (fst r)) k (snd r)) as E1.
  fold u in E1. unfold dispatched in E1 |- *. rewrite N2, A2.
  assert (Q : forall y,
            In y (rev (map fst (snd (fst r))) ++ dispatched (snd r)) <->
            In y (dispatched st) \/ In y (above (cursor st) ms)).
  { intro y. rewrite in_app_iff, <- in_rev. unfold dispatched.
    pose proof (nobs_forEach ms None [] st) as N1. fold r in N1. simpl in N1.
    rewrite N1. subst r.
    destruct (truthy (imageCache (settings (this st)))) eqn:Ec.
    - destruct (truthy_inv _ Ec) as (dir & Hc & Hd).
      destruct (forEach_cache ms None [] st dir Hc Hd)
        as (H1 & _ & H3 & _).
      rewrite H1, H3, awaiting_app, awaiting_stat_of. simpl.
      rewrite !in_app_iff. tauto.
    - rewrite forEach_no_cache by exact Ec. simpl.
      rewrite map_map. simpl. rewrite map_id, !in_app_iff. tauto. }
  rewrite <- Q. unfold dispatched. rewrite <- app_assoc, E1.
  rewrite !in_app_iff. tauto.
Qed.

Lemma below_handleMessages ms k : maintains below_cursor (handleMessages ms k).
Proof.
  intros st H x Hx. fold (exec (handleMessages ms k) st) in *.
  apply dispatched_handleMessages in Hx.
  rewrite cursor_handleMessages.
  pose proof (highest_max ms) as Hm.
  destruct Hx as [Hx | Hx].
  - specialize (H x Hx). destruct (highest ms); lia.
  - unfold above in Hx. apply filter_In in Hx as [Hin _].
    destruct (highest ms) as [h|]; [ | subst ms; destruct Hin ].
    destruct Hm as [_ Hm]. specialize (Hm x Hin). lia.
Qed.

(** The end of an I/O other than a refresh moves a message from suspended
    to handed over, or leaves it suspended; the cursor stays. *)
Lemma dispatched_complete p o st x :
  no_refresh p = true ->
  cursor (exec (complete p o) st) = cursor st /\
  (In x (dispatched (exec (complete p o) st)) <->
   In x (dispatched st) \/ In x (awaiting [p])).
Proof.
  intro Hp. destruct p as [k | f n m | f n m | | k]; [ discriminate | | | | ].
  - assert (E : exec (complete (PStat f n m) o) st =
                if existsb (String.eqb f) (files (node st))
                then exec (notify m (Some f)) st
                else exec (fetchImage_stat false f n m) st).
    { unfold complete, exec, bind, fileExists. simpl.
      destruct (existsb (String.eqb f) (files (node st))); reflexivity. }
    rewrite E. clear E.
    destruct (existsb (String.eqb f) (files (node st))).
    + destruct (dobs_inv _ _ (dobs_notify m (Some f) st))
        as (E1 & E2 & E3 & _).
      cbn [handed suspended head] in E1, E2, E3.
      split; [ exact E3 | ]. unfold dispatched.
      rewrite E1, E2. simpl. rewrite !in_app_iff. simpl. tauto.
    + split; [ reflexivity | ]. unfold dispatched. simpl.
      rewrite awaiting_app. simpl. rewrite !in_app_iff. simpl. tauto.
  - unfold complete. rewrite exec_bind.
    destruct (dobs_fields _ _ (dobs_fetchImage_done o f n st))
      as (F1 & F2 & F3 & _).
    set (st1 := snd (fetchImage_done o f n st)) in *.
    destruct (dobs_inv _ _
                (dobs_notify m (fst (fetchImage_done o f n st)) st1))
      as (E1 & E2 & E3 & _).
    cbn [handed suspended head] in E1, E2, E3.
    split; [ cbv beta; congruence | ].
    unfold dispatched. rewrite E1, E2, F1, F2. simpl.
    rewrite !in_app_iff. simpl. tauto.
  - destruct (dobs_fields _ _ (dobs_notify_done o st))
      as (E1 & E2 & E3 & _).
    split; [ exact E3 | ]. unfold dispatched, exec. simpl complete.
    rewrite E1, E2. simpl. tauto.
  - destruct (dobs_fields _ _ (dobs_updateHead_done o k st))
      as (E1 & E2 & E3 & _).
    split; [ exact E3 | ]. unfold dispatched, exec. simpl complete.
    rewrite E1, E2. simpl. tauto.
Qed.

Section Dispatching.
Variable P : State -> Prop.

(** [P] only looks at what [dobs] shows, and holds across a batch, across
    the end of a refresh and across the end of any other I/O. *)
Hypothesis P_dobs : forall st st', dobs st' = dobs st -> P st -> P st'.
Hypothesis P_handleMessages : forall ms k, maintains P (handleMessages ms k).
Hypothesis P_refresh_ends : forall i k st,
  nth_error (inflight (node st)) i = Some (PRefresh k) ->
  P st -> P (ended i st).
Hypothesis P_io_ends : forall i p o st,
  nth_error (inflight (node st)) i = Some p -> no_refresh p = true ->
  P st -> P (exec (complete p o) (ended i st)).

Lemma disp_refreshMessages_done o k : maintains P (refreshMessages_done o k).
Proof.
  assert (Q : forall a b,
            maintains P (logger_error a ;; logger_error b ;; resume k)).
  { intros a b st. apply P_dobs.
    assert (R : preserves dobs (logger_error a ;; logger_error b ;; resume k)).
    { apply preserves_bind; [ intro; reflexivity | intro ].
      apply preserves_bind; [ intro; reflexivity | intro ].
      apply dobs_resume. }
    apply R. }
  unfold refreshMessages_done.
  destruct o as [stack | code data [stack | ms]];
    try destruct (code =? 200);
    try apply Q. apply P_handleMessages.
Qed.

Lemma disp_step e st st' : step e st = Some st' -> P st -> P st'.
Proof.
  intros H B.
  assert (Q : forall A (m : M A), preserves dobs m -> P (exec m st)).
  { intros A m R. revert B. apply P_dobs, R. }
  assert (Hlog : forall a, preserves dobs (logger_log a ;; reconnect)).
  { intro a. apply preserves_bind; [ intro; reflexivity | intro ].
    apply dobs_reconnect. }
  destruct e; simpl in H.
  - injection H as <-. apply Q, dobs_connect.
  - destruct (0 <=? ms); [ injection H as <- | discriminate ].
    apply Q. intro; reflexivity.
  - destruct (listening s st); [ injection H as <- | discriminate ].
    apply Q, dobs_refreshMessages.
  - destruct (listening s st); [ injection H as <- | discriminate ].
    apply Q. unfold on_message.
    destruct (String.eqb data "!"); [ | destruct (String.eqb data "#") ].
    + apply preserves_bind; [ intro; reflexivity | intro ].
      apply dobs_refreshMessages.
    + intro; reflexivity.
    + apply Hlog.
  - destruct (listening s st); [ injection H as <- | discriminate ].
    apply Q. unfold on_error.
    apply preserves_bind; [ intro; reflexivity | intro ].
    apply preserves_bind; [ intro; reflexivity | intro ].
    apply dobs_reconnect.
  - destruct (listening s st); [ injection H as <- | discriminate ].
    apply Q, Hlog.
  - destruct (find_timer h (timers (node st))) as [t|]; [ | discriminate ].
    destruct (due t <=? now (node st)); [ injection H as <- | discriminate ].
    apply Q. apply preserves_bind; [ intro; reflexivity | intro ].
    destruct (callback t); simpl; [ apply Hlog | ].
    unfold retry_expired.
    apply preserves_bind; [ intro; reflexivity | intro ].
    apply preserves_bind; [ intro; reflexivity | intro ].
    apply dobs_connect.
  - destruct (nth_error (inflight (node st)) i) as [p|] eqn:En;
      [ | discriminate ].
    injection H as <-. rewrite exec_then.
    change (exec (modify_node (fun n =>
                    set_inflight (drop_nth i (inflight n)) n)) st)
      with (ended i st).
    destruct (no_refresh p) eqn:Hp.
    + apply P_io_ends; assumption.
    + destruct p as [k| | | |]; try discriminate Hp.
      apply disp_refreshMessages_done. eapply P_refresh_ends; eassumption.
Qed.

Lemma disp_run es : forall st st', run es st = Some st' -> P st -> P st'.
Proof.
  induction es as [|e es IH]; simpl; intros st st' H J.
  - injection H as <-. exact J.
  - destruct (step e st) as [st1|] eqn:E; [ | discriminate ].
    eapply IH; [ exact H | ]. eapply disp_step; eassumption.
Qed.
End Dispatching.

(** The end of an I/O takes its callback off the suspended ones. *)
Lemma dispatched_ended i p st x :
  nth_error (inflight (node st)) i = Some p ->
  In x (dispatched st) <->
  In x (dispatched (ended i st)) \/ In x (awaiting [p]).
Proof.
  intro En. pose proof (awaiting_drop_nth _ _ _ En) as Hperm.
  unfold dispatched, ended. simpl. rewrite !in_app_iff. split.
  - intros [Hx | Hx]; [ tauto | ].
    apply (Permutation_in _ Hperm) in Hx. apply in_app_or in Hx. tauto.
  - intros [[Hx | Hx] | Hx]; [ tauto | | ]; right;
      apply (Permutation_in _ (Permutation_sym Hperm));
      apply in_or_app; tauto.
Qed.

Lemma below_run es st st' :
  run es st = Some st' -> below_cursor st -> below_cursor st'.
Proof.
  apply disp_run.
  - apply below_dobs.
  - apply below_handleMessages.
  - intros i k st0 En B x Hx. apply (B x).
    apply (dispatched_ended _ _ _ x En). left. exact Hx.
  - intros i p o st0 En Hp B x Hx.
    destruct (dispatched_complete p o (ended i st0) x Hp) as [Ec Hd].
    rewrite Ec. apply (B x). apply (dispatched_ended _ _ _ x En).
    apply Hd, Hx.
Qed.

(** *** What is acknowledged was dispatched *)




(** *** What is posted is what was handed over *)

Lemma pobs_fetchImage n m : preserves pobs (fetchImage n m).
Proof. unfold fetchImage. untouched. Qed.

Lemma pobs_forEach ms : forall last ready,
  preserves pobs (forEach ms last ready).
Proof.
  induction ms as [|m ms IH]; intros; simpl; [ untouched | ].
  apply preserves_bind; [ intro; reflexivity | intro c ].
  destruct (lastMessageId c <? id m); [ | apply IH ].
  apply preserves_bind; [ apply pobs_fetchImage | intros [r|]; apply IH ].
Qed.

Lemma pobs_updateHead m k : preserves pobs (updateHead m k).
Proof. unfold updateHead. untouched. Qed.

Lemma faithful_pobs st st' : pobs st' = pobs st -> faithful st -> faithful st'.
Proof. unfold pobs, faithful. intros [= -> ->] H. exact H. Qed.

Lemma faithful_notify m f st : faithful st -> faithful (exec (notify m f) st).
Proof.
  intro H. destruct (dobs_inv _ _ (dobs_notify m f st)) as (E1 & _ & _ & _ & E5).
  cbn [handed posted] in E1, E5. unfold faithful in *.
  rewrite E1, E5, H. reflexivity.
Qed.

Lemma faithful_notify_all ready : maintains faithful (notify_all ready).
Proof.
  induction ready as [|[m f] ready IH]; intros st H; [ exact H | ].
  simpl notify_all. fold (exec (notify m f ;; notify_all ready) st).
  rewrite exec_then. apply IH. apply faithful_notify, H.
Qed.

Lemma faithful_handleMessages ms k : maintains faithful (handleMessages ms k).
Proof.
  unfold handleMessages.
  apply maintains_bind;
    [ intro st; apply faithful_pobs, pobs_forEach | intro r ].
  apply maintains_bind;
    [ intro st; apply faithful_pobs, pobs_updateHead | intro b ].
  apply maintains_bind; [ apply faithful_notify_all | intro ].
  destruct b; [ | intros st H; exact H ].
  intro st. apply faithful_dobs, dobs_resume.
Qed.

Lemma faithful_run es st st' :
  run es st = Some st' -> faithful st -> faithful st'.
Proof.
  apply disp_run.
  - apply faithful_dobs.
  - apply faithful_handleMessages.
  - intros i k st0 _ H. exact H.
  - intros i p o st0 _ Hp H.
    assert (H0 : faithful (ended i st0)) by exact H.
    revert H0. generalize (ended i st0). clear H. intros st1 H.
    destruct p as [k | f n m | f n m | | k]; [ discriminate | | | | ].
    + assert (E : exec (complete (PStat f n m) o) st1 =
                  if existsb (String.eqb f) (files (node st1))
                  then exec (notify m (Some f)) st1
                  else exec (fetchImage_stat false f n m) st1).
      { unfold complete, exec, bind, fileExists. simpl.
        destruct (existsb (String.eqb f) (files (node st1))); reflexivity. }
      rewrite E. destruct (existsb (String.eqb f) (files (node st1))).
      * apply faithful_notify, H.
      * exact H.
    + unfold complete. rewrite exec_bind. apply faithful_notify.
      revert H. apply faithful_dobs, dobs_fetchImage_done.
    + revert H. apply faithful_dobs, dobs_notify_done.
    + revert H. apply faithful_dobs, dobs_updateHead_done.
Qed.

(** X14.  No message is dispatched by two batches.  In every reachable
    state each message handed to [notify] so far, and each message whose
    callback is still suspended in [fetchImage], has an id at or below the
    cursor, however refreshes, downloads, forwards and reconnects were
    interleaved.  A batch handled next dispatches the messages it has
    above the cursor and no other, so each of them has an id above every
    id dispatched before. *)
Theorem dispatch_is_at_most_once :
  forall (s : ISettings) (cached : list string) (es : list Event)
         (st : State),
    run es (boot s cached) = Some st ->
    below_cursor st /\
    (forall ms k x,
       In x (dispatched (exec (handleMessages ms k) st)) <->
       In x (dispatched st) \/ In x (above (cursor st) ms)) /\
    (forall ms m2 m,
       In m2 (above (cursor st) ms) -> In m (dispatched st) ->
       id m < id m2).
Proof.
  intros s cached es st H.
  assert (B : below_cursor st).
  { eapply below_run; [ exact H | ]. intros m []. }
  split; [ exact B | ].
  split; [ intros; apply dispatched_handleMessages | ].
  intros ms m2 m H2 Hm. specialize (B m Hm).
  unfold above in H2. apply filter_In in H2 as [_ Hlt].
  apply Z.ltb_lt in Hlt. lia.
Qed.

Lemma dispatch_is_at_most_once_witness :
  let st := reached (caught_up ++
                     [Ws_message 0 "!"; Ws_message 0 "!";
                      Io_done 0 (ok sample_batch);
                      Io_done 0 (ok (sample_message 12 :: sample_batch))])
                    sample_settings [] in
  map id (dispatched st) = [12; 9; 5; 4] /\ cursor st = 12 /\
  below_cursor st.
Proof.
  intro st.
  split; [ vm_compute; reflexivity | ].
  split; [ vm_compute; reflexivity | ].
  apply (dispatch_is_at_most_once sample_settings []
           (caught_up ++
            [Ws_message 0%nat "!"; Ws_message 0%nat "!";
             Io_done 0 (ok sample_batch);
             Io_done 0 (ok (sample_message 12 :: sample_batch))]) st).
  vm_compute. reflexivity.
Defined.

(** ** When the login can fail *)




















Lemma gotifyPriority_range p : In (gotifyPriority p) [1; 3; 5; 10].
Proof.
  destruct p as [|q|q]; simpl; try tauto;
    destruct q as [q|q|]; simpl; try tauto; destruct q; simpl; tauto.
Qed.

(** X17.  What reaches the destination is what [notify] was given.  In
    every reachable state the bodies posted to [/message], newest first,
    are the title, the text and the translated priority of the messages
    handed to [notify], one for one and in the same order: no message is
    posted twice by one call, none is posted without being logged, the
    icon file is not part of the body, and every priority posted is 1, 3,
    5 or 10. *)
Theorem forwards_are_faithful :
  forall (s : ISettings) (cached : list string) (es : list Event)
         (st : State),
    run es (boot s cached) = Some st ->
    faithful st /\
    Forall (fun f => In (snd f) [1; 3; 5; 10]) (sent st).
Proof.
  intros s cached es st H.
  assert (F : faithful st).
  { eapply faithful_run; [ exact H | ]. reflexivity. }
  split; [ exact F | ].
  rewrite F. apply Forall_forall. intros f Hf.
  apply in_map_iff in Hf as (m & <- & _). apply gotifyPriority_range.
Qed.

Lemma forwards_are_faithful_witness :
  let st := reached (caught_up ++
                     [Ws_message 0 "!";
                      Io_done 0 (ok [{| id := 6; title := "t"; message := "b";
                                        app := "a"; aid := 1; icon := None;
                                        date := 0; priority := -2;
                                        acked := 0; umid := 6 |};
                                     sample_message 5])])
                    sample_settings [] in
  sent st = [("5", "body", 5); ("t", "b", 1); ("4", "body", 5)] /\
  faithful st /\
  Forall (fun f => In (snd f) [1; 3; 5; 10]) (sent st).
Proof.
  intro st. split; [ vm_compute; reflexivity | ].
  apply (forwards_are_faithful sample_settings []
           (caught_up ++
            [Ws_message 0%nat "!";
             Io_done 0 (ok [{| id := 6; title := "t"; message := "b";
                               app := "a"; aid := 1; icon := None;
                               date := 0; priority := -2;
                               acked := 0; umid := 6 |};
                            sample_message 5])]) st).
  vm_compute. reflexivity.
Defined.
